(** * spacelightd: the SpaceNav-to-WLED daemon

    A shallow embedding of [spacelightd.py].  The module globals
    [color_temp], [brightness], [on] and [is_running] form the shared
    store; [handle_spacenav_events] is the only writer of it, and
    [set_led_settings] reads it across its [await] points. *)

From Stdlib Require Import ZArith List String Bool Lia.
From Stdlib Require Import Floats.SpecFloat.
Import ListNotations.
Local Open Scope Z_scope.

(** ** Python numbers

    [color_temp] and [brightness] start as the [int] 0 and become [float]
    as soon as a motion event is committed ([event.rz / 300.0] is a true
    division by a float literal).  Both kinds of values are kept apart,
    floats being IEEE 754 binary64 values with round-to-nearest-even. *)
Module PyNum.

Definition prec : Z := 53.
Definition emax : Z := 1024.

Inductive num : Type :=
| PyInt (z : Z)
| PyFloat (f : spec_float).

(** [float(z)] for an [int]: the binary64 value nearest to [z], ties to
    even.  Past the binary64 range Python raises OverflowError where this
    gives an infinity; the C [int]s of a SpaceNav event and the constants
    of the daemon are far from it. *)
Definition float_of_int (z : Z) : spec_float :=
  binary_normalize prec emax z 0 false.

Definition to_float (a : num) : spec_float :=
  match a with
  | PyInt z => float_of_int z
  | PyFloat f => f
  end.

(** [a - b]: integer subtraction on two [int]s, binary64 subtraction as
    soon as one operand is a [float]. *)
Definition sub (a b : num) : num :=
  match a, b with
  | PyInt x, PyInt y => PyInt (x - y)
  | _, _ => PyFloat (SFsub prec emax (to_float a) (to_float b))
  end.

(** [z / 300.0] for an [int] z. *)
Definition div_300 (z : Z) : num :=
  PyFloat (SFdiv prec emax (float_of_int z) (float_of_int 300)).

(** Exact comparison of a float with an integer, as CPython compares a
    [float] with an [int]: [None] for NaN. *)
Definition compare_float_int (f : spec_float) (z : Z) : option comparison :=
  match f with
  | S754_nan => None
  | S754_infinity s => Some (if s then Lt else Gt)
  | S754_zero _ => Some (0 ?= z)
  | S754_finite s m e =>
      let v := if s then Z.neg m else Z.pos m in
      Some (if 0 <=? e then (v * 2 ^ e ?= z) else (v ?= z * 2 ^ (- e)))
  end.

Definition compare (a b : num) : option comparison :=
  match a, b with
  | PyInt x, PyInt y => Some (x ?= y)
  | PyFloat f, PyInt y => compare_float_int f y
  | PyInt x, PyFloat g => option_map CompOpp (compare_float_int g x)
  | PyFloat f, PyFloat g => SFcompare f g
  end.

(** [a < b], [a > b], [a <= b], [a != b]: all false on NaN except [!=]. *)
Definition lt (a b : num) : bool :=
  match compare a b with Some Lt => true | _ => false end.

Definition gt (a b : num) : bool :=
  match compare a b with Some Gt => true | _ => false end.

Definition le (a b : num) : bool :=
  match compare a b with Some (Lt | Eq) => true | _ => false end.

Definition ne (a b : num) : bool :=
  match compare a b with Some Eq => false | _ => true end.

(** The two-argument builtins: [min(a, b)] keeps [a] unless [b < a],
    [max(a, b)] keeps [a] unless [b > a]. *)
Definition min (a b : num) : num := if lt b a then b else a.
Definition max (a b : num) : num := if gt b a then b else a.

(** Errors of [int(x)]. *)
Inductive int_error : Type :=
| NaNToInt        (* ValueError: cannot convert float NaN to integer *)
| InfinityToInt.  (* OverflowError: cannot convert float infinity to integer *)

(** [int(x)]: the identity on an [int], truncation toward zero on a
    finite [float]. *)
Definition int (a : num) : int_error + Z :=
  match a with
  | PyInt z => inr z
  | PyFloat (S754_zero _) => inr 0
  | PyFloat (S754_finite s m e) =>
      let q := if 0 <=? e then Z.pos m * 2 ^ e else Z.pos m / 2 ^ (- e) in
      inr (if s then - q else q)
  | PyFloat S754_nan => inl NaNToInt
  | PyFloat (S754_infinity _) => inl InfinityToInt
  end.

(** [lo <= x <= hi] for integer bounds. *)
Definition in_range (lo hi : Z) (x : num) : Prop :=
  le (PyInt lo) x = true /\ le x (PyInt hi) = true.

End PyNum.

Import PyNum.

(** ** The shared store *)

Record Globals : Type := mkGlobals {
  color_temp : num;
  brightness : num;
  on : bool;
  is_running : bool
}.

(** Lines 11-14: the values the module binds when it is loaded. *)
Definition initial : Globals :=
  {| color_temp := PyInt 0; brightness := PyInt 0;
     on := false; is_running := true |}.

(** ** The input event loop *)

(** What [spacenav.poll()] returns.  All fields are C [int]s in the
    driver's event structures. *)
Inductive event : Type :=
| MotionEvent (x y z rx ry rz period : Z)
| ButtonEvent (button pressed : Z)
| NoEvent.

(** Lines 44-64, the body of the polling loop for one polled [event].  The
    [log_message] calls under [verbose] only append to the log file and are
    left out. *)
Definition handle_spacenav_event (g : Globals) (ev : event) : Globals :=
  match ev with
  | MotionEvent _ _ _ rx _ rz _ =>
      if on g then
        let new_color_temp :=
          max (PyInt 0) (min (PyInt 255) (sub (color_temp g) (div_300 rz))) in
        let new_brightness :=
          max (PyInt 1) (min (PyInt 255) (sub (brightness g) (div_300 rx))) in
        if ne new_color_temp (color_temp g) || ne new_brightness (brightness g)
        then {| color_temp := new_color_temp; brightness := new_brightness;
                on := on g; is_running := is_running g |}
        else g
      else g
  | ButtonEvent button pressed =>
      let g1 :=
        if (button =? 0) && (pressed =? 1)
        then {| color_temp := color_temp g; brightness := brightness g;
                on := negb (on g); is_running := is_running g |}
        else g in
      if (button =? 1) && (pressed =? 1)
      then {| color_temp := PyInt 127; brightness := PyInt 255;
              on := true; is_running := is_running g1 |}
      else g1
  | NoEvent => g
  end.

(** Lines 42-66: [while is_running: event = spacenav.poll(); ...], run on
    the events the successive polls return.  The loop of lines 33-40 before
    it retries [spacenav.open()] every second and assigns no global. *)
Fixpoint handle_spacenav_events (g : Globals) (polls : list event) : Globals :=
  match polls with
  | [] => g
  | ev :: rest =>
      if is_running g
      then handle_spacenav_events (handle_spacenav_event g ev) rest
      else g
  end.

(** ** The output sync loop *)

(** What [set_led_settings] does to the outside, in program order. *)
Inductive action : Type :=
| NewWLED (ip_address : string)          (* led = WLED(ip_address) *)
| Connect (timeout : num)                (* await asyncio.wait_for(led.connect(), timeout=...) *)
| Master (on : bool) (brightness : Z)    (* await led.master(on=..., brightness=...) *)
| Segment (segment_id brightness cct : Z)  (* await led.segment(..., brightness=..., cct=...) *)
| Close                                  (* await led.close() *)
| Sleep (seconds : num)                  (* await asyncio.sleep(...) *)
| Log (message : string).                (* log_message(...) *)

Inductive exn : Type :=
| TimeoutError               (* asyncio.TimeoutError *)
| Error (message : string).  (* any other Exception, with its str() *)

Definition int_exn (e : int_error) : exn :=
  match e with
  | NaNToInt => Error "cannot convert float NaN to integer"
  | InfinityToInt => Error "cannot convert float infinity to integer"
  end.

(** The literals [0.01], [0.5], [1] and [5] of the sleeps and the timeout. *)
Definition seconds_0_01 : num :=
  PyFloat (SFdiv prec emax (float_of_int 1) (float_of_int 100)).
Definition seconds_0_5 : num :=
  PyFloat (SFdiv prec emax (float_of_int 1) (float_of_int 2)).
Definition seconds_1 : num := PyInt 1.
Definition seconds_5 : num := PyInt 5.

(** asyncio runs both coroutines on one thread: the globals change under
    [set_led_settings] only while it is suspended in an [await], and only
    by the iterations [handle_spacenav_events] makes meanwhile.  A
    schedule gives, for each [await], the events polled while it is
    pending and the exception the awaited call raises, if any. *)
Record awaited : Type := mkAwaited {
  polled : list event;
  raised : option exn
}.

(** The awaits of one iteration of the inner loop (lines 86-97). *)
Record cycle_env : Type := mkCycle {
  at_master : awaited;
  at_segment : awaited;
  at_sleep : list event
}.

(** The awaits of one iteration of the outer loop (lines 76-107);
    [connected] is [led.connected] as line 81 reads it. *)
Record attempt_env : Type := mkAttempt {
  at_connect : awaited;
  connected : bool;
  at_settle : list event;
  cycles : list cycle_env;
  at_close : awaited;
  at_cooldown : list event
}.

(** Lines 71-73 and 93-95: the values last set, [None] until the first
    completed push. *)
Record baseline : Type := mkBaseline {
  last_color_temp : option num;
  last_brightness : option num;
  last_on : option bool
}.

Definition no_baseline : baseline :=
  {| last_color_temp := None; last_brightness := None; last_on := None |}.

Definition baseline_of (g : Globals) : baseline :=
  {| last_color_temp := Some (color_temp g);
     last_brightness := Some (brightness g);
     last_on := Some (on g) |}.

(** [x != last] where [last] may be [None]. *)
Definition ne_last (x : num) (last : option num) : bool :=
  match last with
  | None => true
  | Some y => ne x y
  end.

Definition ne_last_on (b : bool) (last : option bool) : bool :=
  match last with
  | None => true
  | Some c => xorb b c
  end.

(** Line 88. *)
Definition needs_update (g : Globals) (l : baseline) : bool :=
  ne_last (color_temp g) (last_color_temp l)
  || ne_last (brightness g) (last_brightness l)
  || ne_last_on (on g) (last_on l).

(** The parts of what a piece of the loop hands back: the actions it
    performed, the globals and the baseline it leaves, and how it ended. *)
Definition trace_of {R : Type} (x : list action * Globals * baseline * R)
  : list action := fst (fst (fst x)).
Definition store_of {R : Type} (x : list action * Globals * baseline * R)
  : Globals := snd (fst (fst x)).
Definition last_of {R : Type} (x : list action * Globals * baseline * R)
  : baseline := snd (fst x).
Definition end_of {R : Type} (x : list action * Globals * baseline * R)
  : R := snd x.

(** Lines 88-95.  [on] is read with the comparison; [brightness] and
    [color_temp] are read again when [led.master] has returned, and all
    three once more when [led.segment] has returned. *)
Definition update_leds (g : Globals) (l : baseline) (c : cycle_env)
  : list action * Globals * baseline * option exn :=
  if needs_update g l then
    let master := Master (on g) 255 in
    let g1 := handle_spacenav_events g (polled (at_master c)) in
    match raised (at_master c) with
    | Some e => ([master], g1, l, Some e)
    | None =>
        match int (brightness g1), int (color_temp g1) with
        | inl e, _ => ([master], g1, l, Some (int_exn e))
        | inr _, inl e => ([master], g1, l, Some (int_exn e))
        | inr b, inr t =>
            let segment := Segment 0 b t in
            let g2 := handle_spacenav_events g1 (polled (at_segment c)) in
            match raised (at_segment c) with
            | Some e => ([master; segment], g2, l, Some e)
            | None => ([master; segment], g2, baseline_of g2, None)
            end
        end
    end
  else ([], g, l, None).

(** How a loop is left. *)
Inductive loop_end : Type :=
| Stopped           (* [is_running] was read as [False] *)
| Raised (e : exn)  (* an exception left the loop *)
| Pending.          (* the schedule ends while the loop is still going *)

(** Lines 86-97: [while is_running: ...; await asyncio.sleep(0.01)]. *)
Fixpoint connected_loop (g : Globals) (l : baseline) (cs : list cycle_env)
  : list action * Globals * baseline * loop_end :=
  match cs with
  | [] => ([], g, l, if is_running g then Pending else Stopped)
  | c :: cs' =>
      if is_running g then
        let '(t1, g1, l1, r) := update_leds g l c in
        match r with
        | Some e => (t1, g1, l1, Raised e)
        | None =>
            let g2 := handle_spacenav_events g1 (at_sleep c) in
            let '(t2, g3, l3, r') := connected_loop g2 l1 cs' in
            (t1 ++ Sleep seconds_0_01 :: t2, g3, l3, r')
        end
      else ([], g, l, Stopped)
  end.

(** Lines 81-84: what follows a [led.connect()] that returned. *)
Definition settle (verbose : bool) (a : attempt_env) : list action :=
  if connected a
  then (if verbose then [Log "Connected to WLED!"] else [])
         ++ [Sleep seconds_0_5]
  else [].

(** Lines 78-97, the [try] block.  [led] is [None] every time line 78 is
    reached (it is at the start, and the [finally] clause resets it at the
    end of each iteration), so a new client is always made. *)
Definition try_block (verbose : bool) (ip_address : string)
    (g : Globals) (l : baseline) (a : attempt_env)
  : list action * Globals * baseline * loop_end :=
  let g1 := handle_spacenav_events g (polled (at_connect a)) in
  match raised (at_connect a) with
  | Some e => ([NewWLED ip_address; Connect seconds_5], g1, l, Raised e)
  | None =>
      let g2 :=
        if connected a then handle_spacenav_events g1 (at_settle a) else g1 in
      let '(t, g3, l3, r) := connected_loop g2 l (cycles a) in
      (NewWLED ip_address :: Connect seconds_5 :: settle verbose a ++ t,
       g3, l3, r)
  end.

(** Lines 98-101: what the [except] clauses log. *)
Definition error_message (e : exn) : string :=
  match e with
  | TimeoutError => "Connection to WLED timed out. Retrying..."
  | Error m => "An error occurred while connecting to WLED: " ++ m
  end.

(** How one iteration of the outer loop is left. *)
Inductive attempt_end : Type :=
| Next              (* line 107 was reached: the next iteration follows *)
| Escaped (e : exn) (* [led.close()] raised inside [finally] *)
| Unfinished.       (* the schedule ends inside the iteration *)

(** Lines 77-107, one iteration of the outer loop. *)
Definition attempt (verbose : bool) (ip_address : string)
    (g : Globals) (l : baseline) (a : attempt_env)
  : list action * Globals * baseline * attempt_end :=
  let '(t, g1, l1, r) := try_block verbose ip_address g l a in
  let handled :=
    match r with
    | Raised e => [Log (error_message e)]
    | _ => []
    end in
  match r with
  | Pending => (t, g1, l1, Unfinished)
  | _ =>
      let g2 := handle_spacenav_events g1 (polled (at_close a)) in
      match raised (at_close a) with
      | Some e => (t ++ handled ++ [Close], g2, l1, Escaped e)
      | None =>
          (t ++ handled ++ [Close; Sleep seconds_1],
           handle_spacenav_events g2 (at_cooldown a), l1, Next)
      end
  end.

(** How the coroutine stands when the schedule is used up. *)
Inductive status : Type :=
| Running           (* still inside its loops *)
| Returned          (* it returned: [is_running] was read as [False] *)
| Failed (e : exn). (* an exception left the coroutine *)

(** Lines 76-107: [while is_running: try: ... finally: ...]. *)
Fixpoint set_led_settings_from (verbose : bool) (ip_address : string)
    (g : Globals) (l : baseline) (attempts : list attempt_env)
  : list action * Globals * baseline * status :=
  match attempts with
  | [] => ([], g, l, if is_running g then Running else Returned)
  | a :: rest =>
      if is_running g then
        let '(t, g1, l1, r) := attempt verbose ip_address g l a in
        match r with
        | Next =>
            let '(t', g2, l2, r') :=
              set_led_settings_from verbose ip_address g1 l1 rest in
            (t ++ t', g2, l2, r')
        | Escaped e => (t, g1, l1, Failed e)
        | Unfinished => (t, g1, l1, Running)
        end
      else ([], g, l, Returned)
  end.

(** Lines 68-107. *)
Definition set_led_settings (verbose : bool) (ip_address : string)
    (g : Globals) (attempts : list attempt_env)
  : list action * Globals * baseline * status :=
  set_led_settings_from verbose ip_address g no_baseline attempts.

(** Lines 110-113: both coroutines are gathered on the module's initial
    globals.  [first_polls] are the events the input loop handles before
    [set_led_settings] reaches its first [await]; "Daemon stopped" is
    logged once both have returned. *)
Definition main (verbose : bool) (ip_address : string)
    (first_polls : list event) (attempts : list attempt_env)
  : list action * Globals * status :=
  let g0 := handle_spacenav_events initial first_polls in
  let '(t, g, _, r) := set_led_settings verbose ip_address g0 attempts in
  (Log "Daemon started" :: t
     ++ match r with Returned => [Log "Daemon stopped"] | _ => [] end,
   g, r).

(** ** The shutdown path *)

(** What [int(f.read())] makes of the content of the PID file: an
    integer, or a ValueError when the content is not the text of one. *)
Inductive pid_text : Type :=
| Numeral (pid : Z)
| NotANumber.

(** How [os.kill(pid, signal.SIGTERM)] ends. *)
Inductive kill_outcome : Type :=
| Delivered (receivers : list Z)
    (* the call returns; the signal went to the process [pid] when [pid]
       is positive, to the members of a process group when it is not *)
| ProcessLookupError            (* no such process or group *)
| KillError (name : string).    (* any other exception: PermissionError,
                                   OverflowError for a [pid] out of range *)

(** The exceptions that leave [stop_daemon]. *)
Inductive stop_error : Type :=
| ValueError                    (* from [int(f.read())] *)
| KillFailed (name : string).   (* from [os.kill], when it is not a
                                   ProcessLookupError *)

(** The part of the operating system [stop_daemon] acts on.  The PID
    file, when it exists, can be read and removed by the caller. *)
Record World : Type := mkWorld {
  pid_file : option pid_text;    (* the content of PID_FILE, if the file exists *)
  os_kill : Z -> kill_outcome;   (* what the kernel answers to a SIGTERM for [pid] *)
  sigterm_sent : list Z;         (* the processes SIGTERM was delivered to *)
  stdout : list string
}.

(** Lines 124-137.  [int(f.read())] stands before the [try]: its
    ValueError leaves at once, the file is kept and nothing is printed.
    Of the exceptions of [os.kill] only ProcessLookupError is caught; the
    [finally] clause removes the file in each case. *)
Definition stop_daemon (w : World) : World * option stop_error :=
  match pid_file w with
  | Some (Numeral pid) =>
      match os_kill w pid with
      | Delivered receivers =>
          ({| pid_file := None; os_kill := os_kill w;
              sigterm_sent := sigterm_sent w ++ receivers;
              stdout := stdout w ++ ["Daemon stopped successfully."%string] |},
           None)
      | ProcessLookupError =>
          ({| pid_file := None; os_kill := os_kill w;
              sigterm_sent := sigterm_sent w;
              stdout := stdout w ++
                ["PID file exists but no process running. Removing stale PID file."%string] |},
           None)
      | KillError name =>
          ({| pid_file := None; os_kill := os_kill w;
              sigterm_sent := sigterm_sent w;
              stdout := stdout w |},
           Some (KillFailed name))
      end
  | Some NotANumber => (w, Some ValueError)
  | None =>
      ({| pid_file := None; os_kill := os_kill w;
          sigterm_sent := sigterm_sent w;
          stdout := stdout w ++
            ["PID file does not exist. Daemon may not be running."%string] |},
       None)
  end.

(** Lines 139-141: [stop_daemon(); sys.exit(0)], on the daemon's globals
    and the world; the third component is the exception that leaves the
    handler, or the exit status passed to [sys.exit]. *)
Definition signal_handler (g : Globals) (w : World)
  : Globals * World * (stop_error + Z) :=
  let '(w', r) := stop_daemon w in
  (g, w', match r with
          | Some e => inl e
          | None => inr 0
          end).

(** The spec's clamp of [x] to [[lo, hi]], as a relation between [x] and
    the result [r]: [r] lies within the bounds, is the bound [x] is beyond,
    and is numerically [x] when [x] is within them. *)
Definition clamped (lo hi : Z) (x r : num) : Prop :=
  in_range lo hi r /\
  (lt x (PyInt lo) = true -> r = PyInt lo) /\
  (gt x (PyInt hi) = true -> r = PyInt hi) /\
  (in_range lo hi x -> ne r x = false).

(** What holds of the globals in every state the daemon reaches. *)
Definition light_state_ok (g : Globals) : Prop :=
  in_range 0 255 (color_temp g) /\
  (brightness g = PyInt 0 \/ in_range 1 255 (brightness g)).

(** What a push may look like: the master update carries brightness 255,
    the segment update addresses segment 0. *)
Definition push_shape (a : action) : Prop :=
  match a with
  | Master _ b => b = 255
  | Segment i _ _ => i = 0
  | _ => True
  end.

(** The client is released before a new one is made: along a trace, no
    [WLED(...)] while a client is [open], no [close()] without one. *)
Fixpoint released_before_new (open : bool) (t : list action) : bool :=
  match t with
  | [] => true
  | NewWLED _ :: t' => negb open && released_before_new true t'
  | Close :: t' => open && released_before_new false t'
  | _ :: t' => released_before_new open t'
  end.

(** Actions that neither make nor release a client. *)
Definition keeps_client (a : action) : Prop :=
  match a with
  | NewWLED _ | Close => False
  | _ => True
  end.

(** An [await] during which the input loop polls nothing and which
    returns. *)
Definition undisturbed : awaited := {| polled := []; raised := None |}.

Definition is_motion (ev : event) : bool :=
  match ev with
  | MotionEvent _ _ _ _ _ _ _ => true
  | _ => false
  end.

(** ** Opening the SpaceNav driver *)

(** How the loop of lines 33-40 is left. *)
Inductive open_end : Type :=
| Opened        (* [spacenav.open()] returned: [break] *)
| NotRunning    (* [is_running] was read as [False] *)
| Retrying.     (* the schedule ends while the loop is still retrying *)

(** Lines 33-40: [while is_running: try: spacenav.open() ... break;
    except spacenav.ConnectionError: ...; await asyncio.sleep(1)].  Each
    element of [opens] tells whether one call of [spacenav.open()] returns
    ([true]) or raises [spacenav.ConnectionError] ([false]). *)
Fixpoint open_spacenav (g : Globals) (opens : list bool)
  : list action * open_end :=
  if is_running g then
    match opens with
    | [] => ([], Retrying)
    | true :: _ => ([Log "Connection to SpaceNav driver established."], Opened)
    | false :: rest =>
        let '(t, r) := open_spacenav g rest in
        (Log "No connection to the SpaceNav driver. Retrying..."
           :: Sleep seconds_1 :: t, r)
    end
  else ([], NotRunning).

(** Lines 30-66, the whole input coroutine: the events are polled only
    once the driver is open. *)
Definition spacenav_coroutine (g : Globals) (opens : list bool)
    (polls : list event) : list action * Globals :=
  let '(t, r) := open_spacenav g opens in
  match r with
  | Opened => (t, handle_spacenav_events g polls)
  | _ => (t, g)
  end.

(** ** Shapes of traces *)

(** The actions [set_led_settings] can perform for a given host. *)
Definition sync_action (ip_address : string) (a : action) : Prop :=
  match a with
  | NewWLED ip => ip = ip_address
  | Connect timeout => timeout = seconds_5
  | Master _ b => b = 255
  | Segment i _ _ => i = 0
  | Close => True
  | Sleep d => d = seconds_0_01 \/ d = seconds_0_5 \/ d = seconds_1
  | Log m =>
      m = "Connected to WLED!"%string \/ exists e, m = error_message e
  end.

(** A segment update within the value range of the fixture. *)
Definition segment_in_range (a : action) : Prop :=
  match a with
  | Segment _ b t => 0 <= b <= 255 /\ 0 <= t <= 255
  | _ => True
  end.

(** The line logged under [verbose] on line 83. *)
Definition is_connected_log (a : action) : bool :=
  match a with
  | Log m => String.eqb m "Connected to WLED!"
  | _ => false
  end.

Definition without_connected_log (t : list action) : list action :=
  filter (fun a => negb (is_connected_log a)) t.

(** A pass of the inner loop during which the input loop polls nothing
    and both pushes return. *)
Definition quiet_cycle (c : cycle_env) : Prop :=
  at_master c = undisturbed /\ at_segment c = undisturbed /\ at_sleep c = [].

(** The globals a piece of the sync loop leaves are the ones it found,
    moved on by events the input loop handled meanwhile. *)
Definition moved_by_input (g g' : Globals) : Prop :=
  exists polls, g' = handle_spacenav_events g polls.

(** * Properties *)

(** ** Comparisons of Python numbers *)

Section Comparisons.

Ltac order_of_compare :=
  repeat match goal with
  | H : Some ?c = Some ?d |- _ =>
      assert (c = d) by (clear - H; congruence); clear H
  | H : (?x ?= ?y) = Lt |- _ => change (x < y) in H
  | H : (?x ?= ?y) = Gt |- _ => change (x > y) in H
  | H : (_ ?= _) = Eq |- _ => apply Z.compare_eq_iff in H
  | |- Some _ = Some _ => f_equal
  | |- (?x ?= ?y) = Lt => change (x < y)
  | |- (?x ?= ?y) = Gt => change (x > y)
  | |- (_ ?= _) = Eq => apply Z.compare_eq_iff
  end.

Ltac float_int_cases f :=
  unfold compare_float_int;
  destruct f as [s | s | | s m e];
  [ | destruct s | | match goal with
                     | |- context [0 <=? ?x] => destruct (0 <=? x)
                     end ];
  try discriminate; try congruence.

Lemma pow2_pos (e : Z) : 0 < 2 ^ (- e) \/ 2 ^ (- e) = 0.
Proof.
  destruct (Z.le_gt_cases 0 (- e)).
  - left. apply Z.pow_pos_nonneg; lia.
  - right. apply Z.pow_neg_r. lia.
Qed.

Lemma compare_float_int_Lt_le (f : spec_float) (a b : Z) :
  compare_float_int f a = Some Lt -> a <= b ->
  compare_float_int f b = Some Lt.
Proof.
  float_int_cases f; intros H Hab; order_of_compare; try lia.
  match goal with
  | |- context [2 ^ (- ?x)] => destruct (pow2_pos x); nia
  end.
Qed.

Lemma compare_float_int_Gt_ge (f : spec_float) (a b : Z) :
  compare_float_int f a = Some Gt -> b <= a ->
  compare_float_int f b = Some Gt.
Proof.
  float_int_cases f; intros H Hab; order_of_compare; try lia.
  match goal with
  | |- context [2 ^ (- ?x)] => destruct (pow2_pos x); nia
  end.
Qed.

(** Against an integer bound the order of a number is total up to NaN,
    and turning the comparison round turns the verdict round. *)
Lemma compare_int_l (a : Z) (x : num) :
  compare (PyInt a) x = option_map CompOpp (compare x (PyInt a)).
Proof.
  destruct x as [z | f]; simpl; [ | reflexivity ].
  now rewrite (Z.compare_antisym z a).
Qed.

Lemma compare_mono_Lt (x : num) (a b : Z) :
  compare x (PyInt a) = Some Lt -> a <= b -> compare x (PyInt b) = Some Lt.
Proof.
  destruct x as [z | f]; simpl.
  - intros H Hab. order_of_compare. lia.
  - apply compare_float_int_Lt_le.
Qed.

Lemma compare_mono_Gt (x : num) (a b : Z) :
  compare x (PyInt a) = Some Gt -> b <= a -> compare x (PyInt b) = Some Gt.
Proof.
  destruct x as [z | f]; simpl.
  - intros H Hab. order_of_compare. lia.
  - apply compare_float_int_Gt_ge.
Qed.

Lemma SFcompare_refl (f : spec_float) (a : Z) (c : comparison) :
  compare_float_int f a = Some c -> SFcompare f f = Some Eq.
Proof.
  destruct f as [s | s | | s m e]; simpl; try discriminate; intros _.
  - reflexivity.
  - now destruct s.
  - rewrite Z.compare_refl, Pos.compare_cont_refl. now destruct s.
Qed.

Lemma compare_refl (x : num) (a : Z) (c : comparison) :
  compare x (PyInt a) = Some c -> compare x x = Some Eq.
Proof.
  destruct x as [z | f]; simpl.
  - intros _. now rewrite Z.compare_refl.
  - apply SFcompare_refl.
Qed.

End Comparisons.

(** ** Clamping *)

Section Clamping.

Variables lo hi : Z.
Hypothesis lo_le_hi : lo <= hi.

Lemma le_int_int (a b : Z) : le (PyInt a) (PyInt b) = (a <=? b).
Proof.
  unfold le; simpl. unfold Z.leb. now destruct (a ?= b).
Qed.

Lemma in_range_int (z : Z) : lo <= z <= hi -> in_range lo hi (PyInt z).
Proof.
  intros Hz. split; rewrite le_int_int; apply Z.leb_le; lia.
Qed.

(** The value of [max(lo, min(hi, x))], the expression of lines 45 and
    46, by the position of [x]. *)
Lemma max_min_value (x : num) :
  max (PyInt lo) (min (PyInt hi) x) =
  match compare x (PyInt hi) with
  | Some Lt =>
      match compare x (PyInt lo) with
      | Some Gt => x
      | _ => PyInt lo
      end
  | _ => PyInt hi
  end.
Proof.
  assert (Hint : max (PyInt lo) (PyInt hi) = PyInt hi).
  { unfold max, gt. change (compare (PyInt hi) (PyInt lo)) with (Some (hi ?= lo)).
    destruct (hi ?= lo) eqn:Hc; try reflexivity.
    - apply Z.compare_eq_iff in Hc. now subst.
    - change (hi < lo) in Hc. lia. }
  unfold min, lt.
  destruct (compare x (PyInt hi)) as [[ | | ] | ]; try exact Hint.
  unfold max, gt. now destruct (compare x (PyInt lo)) as [[ | | ] | ].
Qed.

Lemma max_min_clamped (x : num) :
  clamped lo hi x (max (PyInt lo) (min (PyInt hi) x)).
Proof.
  rewrite max_min_value. unfold clamped.
  destruct (compare x (PyInt hi)) as [[ | | ] | ] eqn:Hhi;
    [ | destruct (compare x (PyInt lo)) as [[ | | ] | ] eqn:Hlo | | ].
  all: repeat apply conj; try (apply in_range_int; lia).
  all: unfold in_range, lt, gt, le, ne.
  all: rewrite ?(compare_int_l _ x), ?Hhi, ?Hlo; cbn [option_map CompOpp].
  all: try (intros; discriminate); try (intros; reflexivity).
  all: try (intros [? ?]; discriminate).
  all: try (rewrite (compare_refl _ _ _ Hhi); intros; reflexivity).
  all: destruct (compare x (PyInt lo)) as [[ | | ] | ] eqn:Hlo;
    try (intros; discriminate).
  all: rewrite (compare_mono_Lt _ _ _ Hlo lo_le_hi) in Hhi; discriminate.
Qed.

End Clamping.

(** ** The input event loop *)

Lemma handle_event_is_running (g : Globals) (ev : event) :
  is_running (handle_spacenav_event g ev) = is_running g.
Proof.
  destruct ev as [x y z rx ry rz period | button pressed | ]; simpl.
  - destruct (on g); [ | reflexivity ].
    now destruct (ne _ _ || ne _ _).
  - now destruct ((button =? 0) && (pressed =? 1)),
                 ((button =? 1) && (pressed =? 1)).
  - reflexivity.
Qed.

Lemma handle_events_is_running (polls : list event) (g : Globals) :
  is_running (handle_spacenav_events g polls) = is_running g.
Proof.
  revert g. induction polls as [ | ev rest IH]; intros g; simpl.
  - reflexivity.
  - destruct (is_running g) eqn:Hrun; [ | exact Hrun ].
    now rewrite IH, handle_event_is_running.
Qed.

Lemma handle_event_ok (g : Globals) (ev : event) :
  light_state_ok g -> light_state_ok (handle_spacenav_event g ev).
Proof.
  intros Hg.
  destruct ev as [x y z rx ry rz period | button pressed | ]; simpl.
  - destruct (on g); [ | exact Hg ].
    destruct (ne _ _ || ne _ _); [ | exact Hg ].
    split; simpl.
    + apply max_min_clamped. lia.
    + right. apply max_min_clamped. lia.
  - destruct ((button =? 1) && (pressed =? 1)).
    + split; simpl; [ | right ]; apply in_range_int; lia.
    + destruct ((button =? 0) && (pressed =? 1)); exact Hg.
  - exact Hg.
Qed.

Lemma handle_events_ok (polls : list event) (g : Globals) :
  light_state_ok g -> light_state_ok (handle_spacenav_events g polls).
Proof.
  revert g. induction polls as [ | ev rest IH]; intros g Hg; simpl.
  - exact Hg.
  - destruct (is_running g); [ | exact Hg ].
    apply IH, handle_event_ok, Hg.
Qed.

Lemma handle_event_floor (g : Globals) (ev : event) :
  in_range 1 255 (brightness g) ->
  in_range 1 255 (brightness (handle_spacenav_event g ev)).
Proof.
  intros Hg.
  destruct ev as [x y z rx ry rz period | button pressed | ]; simpl.
  - destruct (on g); [ | exact Hg ].
    destruct (ne _ _ || ne _ _); [ | exact Hg ].
    simpl. apply max_min_clamped. lia.
  - destruct ((button =? 1) && (pressed =? 1)).
    + simpl. apply in_range_int; lia.
    + destruct ((button =? 0) && (pressed =? 1)); exact Hg.
  - exact Hg.
Qed.

Lemma handle_events_floor (polls : list event) (g : Globals) :
  in_range 1 255 (brightness g) ->
  in_range 1 255 (brightness (handle_spacenav_events g polls)).
Proof.
  revert g. induction polls as [ | ev rest IH]; intros g Hg; simpl.
  - exact Hg.
  - destruct (is_running g); [ | exact Hg ].
    apply IH, handle_event_floor, Hg.
Qed.

(** C1, as the code has it: every state reached from the initial one by
    any sequence of polled events has 0 <= color_temp <= 255, and its
    brightness is either still the initial integer 0 or within
    1 <= brightness <= 255; once within these bounds it stays there. *)
Theorem reachable_light_state_ok (polls : list event) :
  let g := handle_spacenav_events initial polls in
  light_state_ok g /\
  (forall more : list event,
      in_range 1 255 (brightness g) ->
      in_range 1 255 (brightness (handle_spacenav_events g more))).
Proof.
  cbv zeta. split.
  - apply handle_events_ok. split.
    + apply in_range_int; lia.
    + left. reflexivity.
  - intros more. apply handle_events_floor.
Qed.

(** C1 as stated fails: a button-0 press right after the start switches
    the light on while brightness is still the initial 0, below the
    claimed floor of 1. *)
Lemma brightness_zero_while_on :
  let g := handle_spacenav_events initial [ButtonEvent 0 1] in
  on g = true /\ brightness g = PyInt 0 /\ ~ in_range 1 255 (brightness g).
Proof.
  cbv zeta. repeat split. intros [H _]. discriminate H.
Qed.

(** C4: a motion event handled while the light is on clamps
    [color_temp - rz / 300.0] to [0, 255] and [brightness - rx / 300.0] to
    [1, 255]; both values are stored if one of them differs from what is
    stored, and the store is left as it is otherwise. *)
Theorem motion_event_while_on (g : Globals) (x y z rx ry rz period : Z) :
  on g = true ->
  exists new_color_temp new_brightness : num,
    clamped 0 255 (sub (color_temp g) (div_300 rz)) new_color_temp /\
    clamped 1 255 (sub (brightness g) (div_300 rx)) new_brightness /\
    handle_spacenav_event g (MotionEvent x y z rx ry rz period) =
      if ne new_color_temp (color_temp g) || ne new_brightness (brightness g)
      then {| color_temp := new_color_temp; brightness := new_brightness;
              on := on g; is_running := is_running g |}
      else g.
Proof.
  intros Hon.
  exists (max (PyInt 0) (min (PyInt 255) (sub (color_temp g) (div_300 rz)))).
  exists (max (PyInt 1) (min (PyInt 255) (sub (brightness g) (div_300 rx)))).
  split; [ apply max_min_clamped; lia | ].
  split; [ apply max_min_clamped; lia | ].
  simpl. now rewrite Hon.
Qed.

Lemma motion_event_while_on_witness :
  let g := handle_spacenav_events initial [ButtonEvent 1 1] in
  on g = true /\
  exists new_color_temp new_brightness : num,
    clamped 0 255 (sub (color_temp g) (div_300 0)) new_color_temp /\
    clamped 1 255 (sub (brightness g) (div_300 300)) new_brightness /\
    handle_spacenav_event g (MotionEvent 0 0 0 300 0 0 0) =
      if ne new_color_temp (color_temp g) || ne new_brightness (brightness g)
      then {| color_temp := new_color_temp; brightness := new_brightness;
              on := on g; is_running := is_running g |}
      else g.
Proof.
  split; [ reflexivity | ].
  apply (motion_event_while_on
           (handle_spacenav_events initial [ButtonEvent 1 1]) 0 0 0 300 0 0 0).
  reflexivity.
Defined.

(** C5: a button-1 press sets on = True, brightness = 255 and
    color_temp = 127, whatever the state before. *)
Theorem button_1_press_presets (g : Globals) :
  handle_spacenav_event g (ButtonEvent 1 1) =
  {| color_temp := PyInt 127; brightness := PyInt 255;
     on := true; is_running := is_running g |}.
Proof.
  reflexivity.
Qed.

(** C6: a button-0 press negates [on] and leaves [brightness] and
    [color_temp] as they are; a second press gives the first state back. *)
Theorem button_0_press_toggles (g : Globals) :
  let g1 := handle_spacenav_event g (ButtonEvent 0 1) in
  on g1 = negb (on g) /\
  brightness g1 = brightness g /\
  color_temp g1 = color_temp g /\
  handle_spacenav_event g1 (ButtonEvent 0 1) = g.
Proof.
  destruct g as [ct b o r]; simpl. repeat split.
  now rewrite negb_involutive.
Qed.

(** C9: while the light is off, a sequence of motion events leaves the
    state as it is. *)
Theorem motion_ignored_while_off (g : Globals) (polls : list event) :
  on g = false ->
  forallb is_motion polls = true ->
  handle_spacenav_events g polls = g.
Proof.
  intros Hoff. induction polls as [ | ev rest IH]; simpl; intros Hm.
  - reflexivity.
  - apply andb_prop in Hm as [Hev Hrest].
    destruct (is_running g); [ | reflexivity ].
    destruct ev; try discriminate Hev.
    simpl. rewrite Hoff. exact (IH Hrest).
Qed.

Lemma motion_ignored_while_off_witness :
  on initial = false /\
  forallb is_motion
    [MotionEvent 0 0 0 350 0 (-120) 0; MotionEvent 1 2 3 4 5 6 7] = true /\
  handle_spacenav_events initial
    [MotionEvent 0 0 0 350 0 (-120) 0; MotionEvent 1 2 3 4 5 6 7] = initial.
Proof.
  split; [ reflexivity | split; [ reflexivity | ] ].
  apply (motion_ignored_while_off initial
           [MotionEvent 0 0 0 350 0 (-120) 0; MotionEvent 1 2 3 4 5 6 7]);
    reflexivity.
Defined.

(** A preset, then a turn of 300 about x and of -600 about z: the
    brightness goes down by 1.0 and the colour temperature up by 2.0. *)
Example preset_then_motion :
  let g := handle_spacenav_events initial
             [ButtonEvent 1 1; MotionEvent 0 0 0 300 0 (-600) 0] in
  on g = true /\
  compare (brightness g) (PyInt 254) = Some Eq /\
  compare (color_temp g) (PyInt 129) = Some Eq /\
  int (brightness g) = inr 254 /\ int (color_temp g) = inr 129.
Proof.
  cbv zeta. repeat split; vm_compute; reflexivity.
Qed.

(** A small turn moves the values by a fraction, which [int] drops. *)
Example small_motion :
  let g := handle_spacenav_events initial
             [ButtonEvent 1 1; MotionEvent 0 0 0 7 0 45 0] in
  lt (PyInt 254) (brightness g) = true /\
  lt (brightness g) (PyInt 255) = true /\
  int (brightness g) = inr 254 /\ int (color_temp g) = inr 126.
Proof.
  cbv zeta. repeat split; vm_compute; reflexivity.
Qed.

(** Turning past the ends stops at the bounds, as integers. *)
Example motion_past_the_bounds :
  handle_spacenav_events initial
    [ButtonEvent 1 1; MotionEvent 0 0 0 (-9000) 0 90000 0;
     MotionEvent 0 0 0 90000 0 0 0] =
  {| color_temp := PyInt 0; brightness := PyInt 1;
     on := true; is_running := true |}.
Proof.
  vm_compute. reflexivity.
Qed.

(** ** The output sync loop *)

(** The four ways one pass over lines 88-95 can go. *)
Lemma update_leds_cases (g : Globals) (l : baseline) (c : cycle_env) :
  let g1 := handle_spacenav_events g (polled (at_master c)) in
  let g2 := handle_spacenav_events g1 (polled (at_segment c)) in
  (needs_update g l = false /\ update_leds g l c = ([], g, l, None)) \/
  (needs_update g l = true /\
   exists e, update_leds g l c = ([Master (on g) 255], g1, l, Some e)) \/
  (needs_update g l = true /\
   exists b t, int (brightness g1) = inr b /\ int (color_temp g1) = inr t /\
     ((exists e, update_leds g l c =
                   ([Master (on g) 255; Segment 0 b t], g2, l, Some e)) \/
      update_leds g l c =
        ([Master (on g) 255; Segment 0 b t], g2, baseline_of g2, None))).
Proof.
  cbv zeta. unfold update_leds.
  destruct (needs_update g l); [ right | left; now split ].
  destruct (raised (at_master c)) as [e | ].
  { left. split; [ reflexivity | now exists e ]. }
  destruct (int (brightness _)) as [e | b] eqn:Hb.
  { left. split; [ reflexivity | now exists (int_exn e) ]. }
  destruct (int (color_temp _)) as [e | t] eqn:Ht.
  { left. split; [ reflexivity | now exists (int_exn e) ]. }
  right. split; [ reflexivity | ].
  exists b, t. repeat split.
  destruct (raised (at_segment c)) as [e | ].
  - left. now exists e.
  - now right.
Qed.

Lemma update_leds_is_running (g : Globals) (l : baseline) (c : cycle_env) :
  is_running (store_of (update_leds g l c)) = is_running g.
Proof.
  destruct (update_leds_cases g l c)
    as [[_ H] | [[_ [e H]] | [_ [b [t [_ [_ [[e H] | H]]]]]]]];
    rewrite H; unfold store_of; simpl;
    now rewrite ?handle_events_is_running.
Qed.

Lemma connected_loop_is_running (cs : list cycle_env) (g : Globals) (l : baseline) :
  is_running (store_of (connected_loop g l cs)) = is_running g.
Proof.
  revert g l. induction cs as [ | c cs IH]; intros g l; simpl.
  - reflexivity.
  - destruct (is_running g) eqn:Hrun; [ | exact Hrun ].
    pose proof (update_leds_is_running g l c) as Hu.
    destruct (update_leds g l c) as [[[t1 g1] l1] [e | ]];
      unfold store_of in Hu; simpl in Hu.
    + unfold store_of; simpl. congruence.
    + specialize (IH (handle_spacenav_events g1 (at_sleep c)) l1).
      destruct (connected_loop _ l1 cs) as [[[t2 g3] l3] r'].
      unfold store_of in *; simpl in *.
      rewrite IH, handle_events_is_running. congruence.
Qed.

Lemma connected_loop_not_stopped (cs : list cycle_env) (g : Globals) (l : baseline) :
  is_running g = true -> end_of (connected_loop g l cs) <> Stopped.
Proof.
  revert g l. induction cs as [ | c cs IH]; intros g l Hrun; simpl.
  - rewrite Hrun. discriminate.
  - rewrite Hrun.
    pose proof (update_leds_is_running g l c) as Hu.
    destruct (update_leds g l c) as [[[t1 g1] l1] [e | ]];
      unfold store_of in Hu; simpl in Hu.
    + discriminate.
    + specialize (IH (handle_spacenav_events g1 (at_sleep c)) l1).
      destruct (connected_loop _ l1 cs) as [[[t2 g3] l3] r'].
      unfold end_of in *; simpl in *. apply IH.
      rewrite handle_events_is_running. congruence.
Qed.

Lemma try_block_is_running (verbose : bool) (ip : string)
    (g : Globals) (l : baseline) (a : attempt_env) :
  is_running (store_of (try_block verbose ip g l a)) = is_running g.
Proof.
  unfold try_block.
  destruct (raised (at_connect a)).
  - unfold store_of; simpl. apply handle_events_is_running.
  - match goal with
    | |- context [connected_loop ?g2 l (cycles a)] =>
        pose proof (connected_loop_is_running (cycles a) g2 l) as Hc;
        destruct (connected_loop g2 l (cycles a)) as [[[t g3] l3] r]
    end.
    unfold store_of in *; simpl in *. rewrite Hc.
    destruct (connected a); now rewrite ?handle_events_is_running.
Qed.

Lemma try_block_not_stopped (verbose : bool) (ip : string)
    (g : Globals) (l : baseline) (a : attempt_env) :
  is_running g = true -> end_of (try_block verbose ip g l a) <> Stopped.
Proof.
  intros Hrun. unfold try_block.
  destruct (raised (at_connect a)).
  - discriminate.
  - match goal with
    | |- context [connected_loop ?g2 l (cycles a)] =>
        pose proof (connected_loop_not_stopped (cycles a) g2 l) as Hc;
        destruct (connected_loop g2 l (cycles a)) as [[[t g3] l3] r]
    end.
    unfold end_of in *; simpl in *. apply Hc.
    destruct (connected a); now rewrite ?handle_events_is_running.
Qed.

Lemma attempt_is_running (verbose : bool) (ip : string)
    (g : Globals) (l : baseline) (a : attempt_env) :
  is_running (store_of (attempt verbose ip g l a)) = is_running g.
Proof.
  unfold attempt.
  pose proof (try_block_is_running verbose ip g l a) as Ht.
  destruct (try_block verbose ip g l a) as [[[t g1] l1] r].
  unfold store_of in *; simpl in *.
  destruct r; try destruct (raised (at_close a)); simpl;
    now rewrite ?handle_events_is_running.
Qed.

Lemma set_led_settings_from_running (verbose : bool) (ip : string)
    (attempts : list attempt_env) (g : Globals) (l : baseline) :
  is_running g = true ->
  let r := set_led_settings_from verbose ip g l attempts in
  is_running (store_of r) = true /\ end_of r <> Returned.
Proof.
  revert g l. induction attempts as [ | a rest IH]; intros g l Hrun; simpl.
  - rewrite Hrun. split; [ exact Hrun | discriminate ].
  - rewrite Hrun.
    pose proof (attempt_is_running verbose ip g l a) as Ha.
    destruct (attempt verbose ip g l a) as [[[t g1] l1] r].
    unfold store_of in Ha; simpl in Ha. rewrite Hrun in Ha.
    destruct r.
    + specialize (IH g1 l1 Ha). cbv zeta in IH.
      destruct (set_led_settings_from verbose ip g1 l1 rest) as [[[t' g2] l2] r'].
      exact IH.
    + split; [ exact Ha | discriminate ].
    + split; [ exact Ha | discriminate ].
Qed.

(** C2 fails on the code.  [is_running] is bound once, to [True], and no
    path assigns it again: under every schedule it is still [True] when the
    schedule is used up and [set_led_settings] has not returned, and the
    signal handler hands the globals back as it found them, on each of
    its paths; it removes the PID file unless the content of the file is
    not a number. *)
Theorem is_running_never_cleared :
  (forall (verbose : bool) (ip : string) (first_polls : list event)
          (attempts : list attempt_env),
      let '(_, g, r) := main verbose ip first_polls attempts in
      is_running g = true /\ r <> Returned) /\
  (forall (g : Globals) (w : World),
      let '(g', w', _) := signal_handler g w in
      g' = g /\
      (pid_file w' = None \/ (pid_file w = Some NotANumber /\ w' = w))).
Proof.
  split.
  - intros verbose ip first_polls attempts. unfold main, set_led_settings.
    pose proof (set_led_settings_from_running verbose ip attempts
                  (handle_spacenav_events initial first_polls) no_baseline) as H.
    rewrite handle_events_is_running in H. specialize (H eq_refl). cbv zeta in H.
    destruct (set_led_settings_from _ _ _ _ _) as [[[t g] l] r].
    exact H.
  - intros g w. unfold signal_handler, stop_daemon.
    destruct (pid_file w) as [[pid | ] | ];
      [ destruct (os_kill w pid) | | ]; simpl; auto.
Qed.

(** The only thing the shutdown path does to a live daemon is to send it
    SIGTERM. *)
Lemma stop_daemon_sends_sigterm (w : World) (pid : Z) (receivers : list Z) :
  pid_file w = Some (Numeral pid) ->
  os_kill w pid = Delivered receivers ->
  sigterm_sent (fst (stop_daemon w)) = sigterm_sent w ++ receivers /\
  snd (stop_daemon w) = None.
Proof.
  intros Hpid Hkill. unfold stop_daemon. now rewrite Hpid, Hkill.
Qed.

(** [int] truncates: on a number that is not negative, [int x] is the
    integer with [int x <= x < int x + 1]. *)
Lemma int_truncates (x : num) (z : Z) :
  int x = inr z ->
  le (PyInt 0) x = true ->
  le (PyInt z) x = true /\ lt x (PyInt (z + 1)) = true.
Proof.
  unfold le, lt. rewrite !compare_int_l.
  destruct x as [y | [s | s | | s m e]];
    cbn -[Z.mul Z.pow Z.div Z.compare Z.add Z.opp Z.leb]; try discriminate;
    intros H.
  - assert (z = y) by congruence. subst z. clear H. intros _.
    rewrite Z.compare_refl. split; [ reflexivity | ].
    destruct (Z.compare_spec y (y + 1)); try reflexivity; lia.
  - assert (z = 0) by congruence. subst z. clear H. intros _. now split.
  - destruct (0 <=? e) eqn:He.
    + apply Z.leb_le in He.
      assert (Hp : 0 < 2 ^ e) by (apply Z.pow_pos_nonneg; lia).
      destruct s.
      * destruct (Z.compare_spec (Z.neg m * 2 ^ e) 0);
          try discriminate; nia.
      * assert (z = Z.pos m * 2 ^ e) by congruence. subst z. clear H.
        intros _. rewrite Z.compare_refl. split; [ reflexivity | ].
        destruct (Z.compare_spec (Z.pos m * 2 ^ e) (Z.pos m * 2 ^ e + 1));
          try reflexivity; lia.
    + apply Z.leb_gt in He.
      assert (Hp : 0 < 2 ^ (- e)) by (apply Z.pow_pos_nonneg; lia).
      destruct s.
      * destruct (Z.compare_spec (Z.neg m) (0 * 2 ^ (- e)));
          try discriminate; lia.
      * assert (z = Z.pos m / 2 ^ (- e)) by congruence. subst z. clear H.
        intros _.
        pose proof (Z.mul_div_le (Z.pos m) _ Hp) as Hlow.
        pose proof (Z.mul_succ_div_gt (Z.pos m) _ Hp) as Hup.
        split.
        -- destruct (Z.compare_spec (Z.pos m)
                       (Z.pos m / 2 ^ (- e) * 2 ^ (- e)));
             try reflexivity; lia.
        -- destruct (Z.compare_spec (Z.pos m)
                       ((Z.pos m / 2 ^ (- e) + 1) * 2 ^ (- e)));
             try reflexivity; lia.
Qed.

Section LoopActions.

(** Whatever holds of the pushes and of the sleeps holds of every action
    of the inner loop. *)
Variable P : action -> Prop.
Hypothesis P_master : forall o, P (Master o 255).
Hypothesis P_segment : forall b t, P (Segment 0 b t).
Hypothesis P_sleep : forall s, P (Sleep s).

Lemma update_leds_Forall (g : Globals) (l : baseline) (c : cycle_env) :
  Forall P (trace_of (update_leds g l c)).
Proof.
  destruct (update_leds_cases g l c)
    as [[_ H] | [[_ [e H]] | [_ [b [t [_ [_ [[e H] | H]]]]]]]];
    rewrite H; unfold trace_of; simpl;
    repeat constructor; auto.
Qed.

Lemma connected_loop_Forall (cs : list cycle_env) (g : Globals) (l : baseline) :
  Forall P (trace_of (connected_loop g l cs)).
Proof.
  revert g l. induction cs as [ | c cs IH]; intros g l; simpl.
  - constructor.
  - destruct (is_running g); [ | constructor ].
    pose proof (update_leds_Forall g l c) as Hu.
    destruct (update_leds g l c) as [[[t1 g1] l1] [e | ]];
      unfold trace_of in Hu; simpl in Hu.
    + exact Hu.
    + specialize (IH (handle_spacenav_events g1 (at_sleep c)) l1).
      destruct (connected_loop _ l1 cs) as [[[t2 g3] l3] r'].
      unfold trace_of in *; simpl in *.
      apply Forall_app. split; [ exact Hu | ].
      constructor; [ apply P_sleep | exact IH ].
Qed.

End LoopActions.

Lemma connected_loop_push_shape (cs : list cycle_env) (g : Globals) (l : baseline) :
  Forall push_shape (trace_of (connected_loop g l cs)).
Proof.
  apply connected_loop_Forall; simpl; auto.
Qed.

Lemma connected_loop_keeps_client (cs : list cycle_env) (g : Globals) (l : baseline) :
  Forall keeps_client (trace_of (connected_loop g l cs)).
Proof.
  apply connected_loop_Forall; simpl; auto.
Qed.

Lemma settle_push_shape (verbose : bool) (a : attempt_env) :
  Forall push_shape (settle verbose a).
Proof.
  unfold settle. destruct (connected a), verbose; repeat constructor.
Qed.

Lemma try_block_push_shape (verbose : bool) (ip : string)
    (g : Globals) (l : baseline) (a : attempt_env) :
  Forall push_shape (trace_of (try_block verbose ip g l a)).
Proof.
  unfold try_block.
  destruct (raised (at_connect a)).
  - repeat constructor.
  - match goal with
    | |- context [connected_loop ?g2 l (cycles a)] =>
        pose proof (connected_loop_push_shape (cycles a) g2 l) as Hc;
        destruct (connected_loop g2 l (cycles a)) as [[[t g3] l3] r]
    end.
    unfold trace_of in *; simpl in *.
    do 2 (constructor; [ exact I | ]).
    apply Forall_app. split; [ apply settle_push_shape | exact Hc ].
Qed.

Lemma attempt_push_shape (verbose : bool) (ip : string)
    (g : Globals) (l : baseline) (a : attempt_env) :
  Forall push_shape (trace_of (attempt verbose ip g l a)).
Proof.
  unfold attempt.
  pose proof (try_block_push_shape verbose ip g l a) as Ht.
  destruct (try_block verbose ip g l a) as [[[t g1] l1] r].
  unfold trace_of in *; simpl in *.
  destruct r; try destruct (raised (at_close a)); simpl;
    rewrite ?Forall_app; repeat split; try exact Ht; repeat constructor.
Qed.

Lemma set_led_settings_from_push_shape (verbose : bool) (ip : string)
    (attempts : list attempt_env) (g : Globals) (l : baseline) :
  Forall push_shape (trace_of (set_led_settings_from verbose ip g l attempts)).
Proof.
  revert g l. induction attempts as [ | a rest IH]; intros g l; simpl.
  - constructor.
  - destruct (is_running g); [ | constructor ].
    pose proof (attempt_push_shape verbose ip g l a) as Ha.
    destruct (attempt verbose ip g l a) as [[[t g1] l1] r].
    unfold trace_of in Ha; simpl in Ha.
    destruct r; try exact Ha.
    specialize (IH g1 l1).
    destruct (set_led_settings_from verbose ip g1 l1 rest) as [[[t' g2] l2] r'].
    unfold trace_of in *; simpl in *.
    apply Forall_app. now split.
Qed.

(** C10: every master update the loop ever issues carries brightness 255;
    a pass over lines 88-95 issues nothing, or the master update alone, or
    the master update and one update of segment 0 whose brightness and cct
    are [int(brightness)] and [int(color_temp)], that is, the stored
    values truncated. *)
Theorem master_update_is_always_255 :
  (forall (verbose : bool) (ip : string) (g : Globals)
          (attempts : list attempt_env),
      Forall push_shape (trace_of (set_led_settings verbose ip g attempts))) /\
  (forall (g : Globals) (l : baseline) (c : cycle_env),
      let g1 := handle_spacenav_events g (polled (at_master c)) in
      let t := trace_of (update_leds g l c) in
      t = [] \/ t = [Master (on g) 255] \/
      exists b ct : Z,
        t = [Master (on g) 255; Segment 0 b ct] /\
        int (brightness g1) = inr b /\ int (color_temp g1) = inr ct /\
        (le (PyInt 0) (brightness g1) = true ->
         le (PyInt b) (brightness g1) = true /\
         lt (brightness g1) (PyInt (b + 1)) = true) /\
        (le (PyInt 0) (color_temp g1) = true ->
         le (PyInt ct) (color_temp g1) = true /\
         lt (color_temp g1) (PyInt (ct + 1)) = true)).
Proof.
  split.
  - intros verbose ip g attempts. apply set_led_settings_from_push_shape.
  - intros g l c. cbv zeta.
    destruct (update_leds_cases g l c)
      as [[_ H] | [[_ [e H]] | [_ [b [t [Hb [Ht [[e H] | H]]]]]]]];
      rewrite H; unfold trace_of; simpl; auto.
    all: right; right; exists b, t.
    all: split; [ reflexivity | ].
    all: split; [ exact Hb | ].
    all: split; [ exact Ht | ].
    all: split; intros Hpos.
    all: first [ exact (int_truncates _ _ Hb Hpos)
               | exact (int_truncates _ _ Ht Hpos) ].
Qed.

Lemma update_leds_trace (g : Globals) (l : baseline) (c : cycle_env) :
  (needs_update g l = true ->
   exists more, trace_of (update_leds g l c) = Master (on g) 255 :: more) /\
  (needs_update g l = false -> update_leds g l c = ([], g, l, None)).
Proof.
  destruct (update_leds_cases g l c)
    as [[Hn H] | [[Hn [e H]] | [Hn [b [t [_ [_ [[e H] | H]]]]]]]];
    rewrite H, Hn; unfold trace_of; simpl;
    split; intros; try discriminate; eauto.
Qed.

(** While the input loop commits nothing during the two pushes and both
    return, a pass over lines 88-95 pushes exactly when the state differs
    from the baseline, and the baseline it leaves is the state it pushed. *)
Lemma update_leds_undisturbed (g : Globals) (l : baseline) (c : cycle_env)
    (b t : Z) :
  at_master c = undisturbed -> at_segment c = undisturbed ->
  int (brightness g) = inr b -> int (color_temp g) = inr t ->
  update_leds g l c =
    if needs_update g l
    then ([Master (on g) 255; Segment 0 b t], g, baseline_of g, None)
    else ([], g, l, None).
Proof.
  intros Hm Hs Hb Ht. unfold update_leds. rewrite Hm, Hs. simpl.
  now rewrite Hb, Ht.
Qed.

(** C3 fails on the code when the input loop writes during a push.  The
    light is on at (255, 127) and nothing was pushed yet; a motion event
    with [rx = 300] is handled while [led.segment] is awaited.  The pass
    pushes brightness 255, then records the globals as they have become,
    brightness 254.0, as the values last set: the following passes see no
    difference and push nothing, although [int(brightness)] is 254. *)
Theorem write_during_push_is_lost :
  let g := handle_spacenav_events initial [ButtonEvent 1 1] in
  let c := {| at_master := undisturbed;
              at_segment := {| polled := [MotionEvent 0 0 0 300 0 0 0];
                               raised := None |};
              at_sleep := [] |} in
  let quiet := {| at_master := undisturbed; at_segment := undisturbed;
                  at_sleep := [] |} in
  let r := update_leds g no_baseline c in
  trace_of r = [Master true 255; Segment 0 255 127] /\
  end_of r = None /\
  int (brightness (store_of r)) = inr 254 /\
  last_of r = baseline_of (store_of r) /\
  last_of r <> baseline_of g /\
  trace_of (connected_loop (store_of r) (last_of r) [quiet; quiet]) =
    [Sleep seconds_0_01; Sleep seconds_0_01].
Proof.
  cbv zeta. repeat split; try (vm_compute; reflexivity).
  vm_compute. intros H. discriminate H.
Qed.


(** ** Recovery from errors *)

Lemma released_keeps (t u : list action) (open : bool) :
  Forall keeps_client t ->
  released_before_new open (t ++ u) = released_before_new open u.
Proof.
  induction 1 as [ | a t Ha _ IH]; simpl.
  - reflexivity.
  - destruct a; simpl in Ha; try contradiction; exact IH.
Qed.

Lemma settle_keeps_client (verbose : bool) (a : attempt_env) :
  Forall keeps_client (settle verbose a).
Proof.
  unfold settle. destruct (connected a), verbose; repeat constructor.
Qed.

(** The [try] block makes one client, first of all, and releases none. *)
Lemma try_block_client (verbose : bool) (ip : string)
    (g : Globals) (l : baseline) (a : attempt_env) :
  exists t, trace_of (try_block verbose ip g l a) = NewWLED ip :: t /\
            Forall keeps_client t.
Proof.
  unfold try_block.
  destruct (raised (at_connect a)).
  - eexists. split; [ reflexivity | repeat constructor ].
  - match goal with
    | |- context [connected_loop ?g2 l (cycles a)] =>
        pose proof (connected_loop_keeps_client (cycles a) g2 l) as Hc;
        destruct (connected_loop g2 l (cycles a)) as [[[t g3] l3] r]
    end.
    unfold trace_of in *; simpl in *.
    eexists. split; [ reflexivity | ].
    constructor; [ exact I | ].
    apply Forall_app. split; [ apply settle_keeps_client | exact Hc ].
Qed.

(** An iteration that reaches line 107 has released its client; one that
    does not has made no second one. *)
Lemma attempt_released (verbose : bool) (ip : string)
    (g : Globals) (l : baseline) (a : attempt_env) :
  let r := attempt verbose ip g l a in
  match end_of r with
  | Next => forall u, released_before_new false (trace_of r ++ u) =
                      released_before_new false u
  | _ => released_before_new false (trace_of r) = true
  end.
Proof.
  cbv zeta. unfold attempt.
  destruct (try_block_client verbose ip g l a) as [t' [Ht Hkeep]].
  destruct (try_block verbose ip g l a) as [[[t g1] l1] r].
  unfold trace_of in Ht; simpl in Ht. subst t.
  assert (Hlog : forall u, released_before_new true
                   (t' ++ match r with
                          | Raised e => [Log (error_message e)]
                          | _ => []
                          end ++ u) = released_before_new true u).
  { intros u. rewrite (released_keeps t' _ true Hkeep). now destruct r. }
  destruct r as [ | e | ]; unfold end_of, trace_of; simpl.
  - destruct (raised (at_close a)); simpl.
    + rewrite (released_keeps t' _ true Hkeep). reflexivity.
    + intros u. rewrite <- app_assoc.
      rewrite (released_keeps t' _ true Hkeep). reflexivity.
  - destruct (raised (at_close a)); simpl.
    + rewrite (released_keeps t' _ true Hkeep). reflexivity.
    + intros u. rewrite <- app_assoc.
      rewrite (released_keeps t' _ true Hkeep). reflexivity.
  - rewrite <- (app_nil_r t'). rewrite (released_keeps t' _ true Hkeep).
    reflexivity.
Qed.

Lemma set_led_settings_from_released (verbose : bool) (ip : string)
    (attempts : list attempt_env) (g : Globals) (l : baseline) :
  released_before_new false
    (trace_of (set_led_settings_from verbose ip g l attempts)) = true.
Proof.
  revert g l. induction attempts as [ | a rest IH]; intros g l; simpl.
  - reflexivity.
  - destruct (is_running g); [ | reflexivity ].
    pose proof (attempt_released verbose ip g l a) as Ha. cbv zeta in Ha.
    destruct (attempt verbose ip g l a) as [[[t g1] l1] r].
    unfold end_of, trace_of in Ha; simpl in Ha.
    destruct r; try exact Ha.
    specialize (IH g1 l1).
    destruct (set_led_settings_from verbose ip g1 l1 rest) as [[[t' g2] l2] r'].
    unfold trace_of in *; simpl in *.
    now rewrite Ha.
Qed.

(** Only [led.close()] can make the coroutine fail. *)
Lemma set_led_settings_from_never_fails (verbose : bool) (ip : string)
    (attempts : list attempt_env) (g : Globals) (l : baseline) (e : exn) :
  Forall (fun a => raised (at_close a) = None) attempts ->
  end_of (set_led_settings_from verbose ip g l attempts) <> Failed e.
Proof.
  intros Hclose. revert g l.
  induction Hclose as [ | a rest Ha _ IH]; intros g l; simpl.
  - destruct (is_running g); discriminate.
  - destruct (is_running g); [ | discriminate ].
    unfold attempt.
    destruct (try_block verbose ip g l a) as [[[t g1] l1] r].
    rewrite Ha.
    destruct r; [ | | discriminate ];
      match goal with
      | |- context [set_led_settings_from verbose ip ?g2 l1 rest] =>
          specialize (IH g2 l1);
          destruct (set_led_settings_from verbose ip g2 l1 rest)
            as [[[t' g3] l3] r']
      end; exact IH.
Qed.

(** A failing [led.connect()], the timeout of 5 included, ends the [try]
    block at once. *)
Lemma connect_error_ends_try_block (verbose : bool) (ip : string)
    (g : Globals) (l : baseline) (a : attempt_env) (e : exn) :
  raised (at_connect a) = Some e ->
  try_block verbose ip g l a =
    ([NewWLED ip; Connect seconds_5],
     handle_spacenav_events g (polled (at_connect a)), l, Raised e).
Proof.
  intros He. unfold try_block. now rewrite He.
Qed.

(** Each iteration that is entered starts by connecting a new client. *)
Lemma iteration_starts_by_connecting (verbose : bool) (ip : string)
    (g : Globals) (l : baseline) (a : attempt_env) (rest : list attempt_env) :
  is_running g = true ->
  exists t,
    trace_of (set_led_settings_from verbose ip g l (a :: rest)) =
      NewWLED ip :: Connect seconds_5 :: t.
Proof.
  intros Hrun. simpl. rewrite Hrun. unfold attempt.
  assert (Htry : exists t, trace_of (try_block verbose ip g l a) =
                           NewWLED ip :: Connect seconds_5 :: t).
  { unfold try_block. destruct (raised (at_connect a)).
    - now exists [].
    - destruct (connected_loop _ l (cycles a)) as [[[t g3] l3] r].
      eexists. reflexivity. }
  destruct Htry as [t0 Ht0].
  destruct (try_block verbose ip g l a) as [[[t g1] l1] r].
  unfold trace_of in Ht0; simpl in Ht0. subst t.
  destruct r; try destruct (raised (at_close a));
    try destruct (set_led_settings_from verbose ip _ l1 rest)
      as [[[t' g3] l3] r'];
    unfold trace_of; simpl; eexists; reflexivity.
Qed.

(** The paths that recover.  Whatever exception the [try] block raises,
    at [led.connect()] (the timeout of 5 included) or in a push, the loop
    logs it, releases the client, sleeps 1 and goes on with the next
    iteration; as long as [led.close()] itself returns, the coroutine
    never fails, and along the whole trace a client is released before a
    new one is made. *)
Theorem wled_errors_are_recovered (verbose : bool) (ip : string)
    (g : Globals) (l : baseline) (a : attempt_env) (rest : list attempt_env)
    (t : list action) (g1 : Globals) (l1 : baseline) (e : exn) :
  is_running g = true ->
  Forall (fun a' => raised (at_close a') = None) (a :: rest) ->
  try_block verbose ip g l a = (t, g1, l1, Raised e) ->
  let g2 :=
    handle_spacenav_events
      (handle_spacenav_events g1 (polled (at_close a))) (at_cooldown a) in
  let r := set_led_settings_from verbose ip g l (a :: rest) in
  let r' := set_led_settings_from verbose ip g2 l1 rest in
  trace_of r =
    t ++ [Log (error_message e); Close; Sleep seconds_1] ++ trace_of r' /\
  store_of r = store_of r' /\
  last_of r = last_of r' /\
  end_of r = end_of r' /\
  (forall e', end_of r <> Failed e') /\
  released_before_new false (trace_of r) = true.
Proof.
  intros Hrun Hclose Htry. cbv zeta.
  pose proof (set_led_settings_from_released verbose ip (a :: rest) g l) as Hrel.
  pose proof (fun e' =>
    set_led_settings_from_never_fails verbose ip (a :: rest) g l e' Hclose)
    as Hfail.
  inversion Hclose as [ | a' rest' Ha Hrest ]; subst.
  revert Hrel Hfail. simpl. rewrite Hrun. unfold attempt.
  rewrite Htry, Ha.
  destruct (set_led_settings_from verbose ip _ l1 rest) as [[[t' g3] l3] r'].
  unfold trace_of, store_of, last_of, end_of; simpl.
  intros Hrel Hfail. repeat apply conj; try reflexivity; try assumption.
  now rewrite <- app_assoc.
Qed.

Lemma wled_errors_are_recovered_witness :
  let a := {| at_connect := {| polled := [ButtonEvent 1 1];
                               raised := Some TimeoutError |};
              connected := false; at_settle := []; cycles := [];
              at_close := undisturbed; at_cooldown := [] |} in
  let t := [NewWLED "cctwled.local"; Connect seconds_5] in
  let g1 := handle_spacenav_events initial [ButtonEvent 1 1] in
  let r := set_led_settings_from true "cctwled.local" initial no_baseline [a] in
  let r' := set_led_settings_from true "cctwled.local" g1 no_baseline [] in
  (is_running initial = true /\
   Forall (fun a' => raised (at_close a') = None) [a] /\
   try_block true "cctwled.local" initial no_baseline a =
     (t, g1, no_baseline, Raised TimeoutError)) /\
  trace_of r =
    t ++ [Log (error_message TimeoutError); Close; Sleep seconds_1]
      ++ trace_of r' /\
  store_of r = store_of r' /\
  last_of r = last_of r' /\
  end_of r = end_of r' /\
  (forall e', end_of r <> Failed e') /\
  released_before_new false (trace_of r) = true.
Proof.
  split; [ repeat split; repeat constructor | ].
  apply (wled_errors_are_recovered true "cctwled.local" initial no_baseline
           {| at_connect := {| polled := [ButtonEvent 1 1];
                               raised := Some TimeoutError |};
              connected := false; at_settle := []; cycles := [];
              at_close := undisturbed; at_cooldown := [] |}
           []
           [NewWLED "cctwled.local"; Connect seconds_5]
           (handle_spacenav_events initial [ButtonEvent 1 1])
           no_baseline TimeoutError).
  - reflexivity.
  - repeat constructor.
  - reflexivity.
Defined.

(** * Further properties of the code *)

(** ** Numbers against integer bounds *)

Lemma compare_Eq_Lt (x : num) (a b : Z) :
  compare x (PyInt a) = Some Eq -> a < b -> compare x (PyInt b) = Some Lt.
Proof.
  destruct x as [z | [s | s | | s m e]];
    cbn -[Z.compare Z.mul Z.pow Z.opp Z.leb]; try discriminate.
  - intros H Hab. f_equal.
    destruct (Z.compare_spec z a); try discriminate.
    destruct (Z.compare_spec z b); try reflexivity; lia.
  - intros H Hab. f_equal.
    destruct (Z.compare_spec 0 a); try discriminate.
    destruct (Z.compare_spec 0 b); try reflexivity; lia.
  - destruct s; discriminate.
  - intros H Hab. f_equal. destruct (0 <=? e).
    + destruct (Z.compare_spec ((if s then Z.neg m else Z.pos m) * 2 ^ e) a);
        try discriminate.
      destruct (Z.compare_spec ((if s then Z.neg m else Z.pos m) * 2 ^ e) b);
        try reflexivity; lia.
    + destruct (Z.compare_spec (if s then Z.neg m else Z.pos m) (a * 2 ^ (- e)))
        as [Heq | | ]; try discriminate.
      assert (Hp : 0 < 2 ^ (- e)).
      { destruct (Z.le_gt_cases 0 (- e)) as [Hle | Hgt].
        - apply Z.pow_pos_nonneg; lia.
        - rewrite (Z.pow_neg_r 2 (- e)) in Heq by lia. destruct s; lia. }
      destruct (Z.compare_spec (if s then Z.neg m else Z.pos m) (b * 2 ^ (- e)));
        try reflexivity; nia.
Qed.

Lemma compare_Eq_Gt (x : num) (a b : Z) :
  compare x (PyInt a) = Some Eq -> b < a -> compare x (PyInt b) = Some Gt.
Proof.
  destruct x as [z | [s | s | | s m e]];
    cbn -[Z.compare Z.mul Z.pow Z.opp Z.leb]; try discriminate.
  - intros H Hab. f_equal.
    destruct (Z.compare_spec z a); try discriminate.
    destruct (Z.compare_spec z b); try reflexivity; lia.
  - intros H Hab. f_equal.
    destruct (Z.compare_spec 0 a); try discriminate.
    destruct (Z.compare_spec 0 b); try reflexivity; lia.
  - destruct s; discriminate.
  - intros H Hab. f_equal. destruct (0 <=? e).
    + destruct (Z.compare_spec ((if s then Z.neg m else Z.pos m) * 2 ^ e) a);
        try discriminate.
      destruct (Z.compare_spec ((if s then Z.neg m else Z.pos m) * 2 ^ e) b);
        try reflexivity; lia.
    + destruct (Z.compare_spec (if s then Z.neg m else Z.pos m) (a * 2 ^ (- e)))
        as [Heq | | ]; try discriminate.
      assert (Hp : 0 < 2 ^ (- e)).
      { destruct (Z.le_gt_cases 0 (- e)) as [Hle | Hgt].
        - apply Z.pow_pos_nonneg; lia.
        - rewrite (Z.pow_neg_r 2 (- e)) in Heq by lia. destruct s; lia. }
      destruct (Z.compare_spec (if s then Z.neg m else Z.pos m) (b * 2 ^ (- e)));
        try reflexivity; nia.
Qed.

(** [a <= x] read on the comparison of [x] with [a]. *)
Lemma le_int_l_cases (a : Z) (x : num) :
  le (PyInt a) x = true ->
  compare x (PyInt a) = Some Gt \/ compare x (PyInt a) = Some Eq.
Proof.
  unfold le. rewrite compare_int_l.
  destruct (compare x (PyInt a)) as [[ | | ] | ]; simpl;
    try discriminate; auto.
Qed.

Lemma le_int_r_cases (x : num) (b : Z) :
  le x (PyInt b) = true ->
  compare x (PyInt b) = Some Lt \/ compare x (PyInt b) = Some Eq.
Proof.
  unfold le.
  destruct (compare x (PyInt b)) as [[ | | ] | ]; try discriminate; auto.
Qed.

Lemma le_le_int (a b : Z) (x : num) :
  le (PyInt a) x = true -> le x (PyInt b) = true -> a <= b.
Proof.
  intros Ha Hb. apply le_int_l_cases in Ha. apply le_int_r_cases in Hb.
  destruct (Z.le_gt_cases a b) as [ | Hgt]; [ assumption | exfalso ].
  destruct Ha as [Ha | Ha].
  - rewrite (compare_mono_Gt _ _ _ Ha (Z.lt_le_incl _ _ Hgt)) in Hb.
    destruct Hb; discriminate.
  - rewrite (compare_Eq_Gt _ _ _ Ha Hgt) in Hb. destruct Hb; discriminate.
Qed.

Lemma le_lt_int (a b : Z) (x : num) :
  le (PyInt a) x = true -> lt x (PyInt b) = true -> a < b.
Proof.
  intros Ha Hb. apply le_int_l_cases in Ha.
  unfold lt in Hb.
  destruct (Z.lt_ge_cases a b) as [ | Hge]; [ assumption | exfalso ].
  destruct Ha as [Ha | Ha].
  - now rewrite (compare_mono_Gt _ _ _ Ha Hge) in Hb.
  - destruct (Z.eq_dec a b) as [-> | Hne].
    + now rewrite Ha in Hb.
    + rewrite (compare_Eq_Gt _ _ _ Ha) in Hb by lia. discriminate.
Qed.

Lemma le_int_l_weaken (a b : Z) (x : num) :
  le (PyInt a) x = true -> b <= a -> le (PyInt b) x = true.
Proof.
  intros Ha Hba. apply le_int_l_cases in Ha.
  unfold le. rewrite compare_int_l.
  destruct Ha as [Ha | Ha].
  - now rewrite (compare_mono_Gt _ _ _ Ha Hba).
  - destruct (Z.eq_dec a b) as [<- | Hne].
    + now rewrite Ha.
    + rewrite (compare_Eq_Gt _ _ _ Ha) by lia. reflexivity.
Qed.

(** A number within integer bounds is neither NaN nor infinite:
    [int] succeeds on it, within the same bounds. *)
Lemma int_in_range (lo hi : Z) (x : num) :
  0 <= lo -> in_range lo hi x ->
  exists z, int x = inr z /\ lo <= z <= hi.
Proof.
  intros Hlo [Hl Hh].
  assert (Hint : exists z, int x = inr z).
  { apply le_int_l_cases in Hl. apply le_int_r_cases in Hh.
    destruct x as [z | [s | s | | s m e]]; simpl; eauto.
    - simpl in Hl, Hh. destruct s;
        destruct Hl as [Hl | Hl], Hh as [Hh | Hh]; discriminate.
    - simpl in Hl. destruct Hl; discriminate. }
  destruct Hint as [z Hz]. exists z. split; [ exact Hz | ].
  destruct (int_truncates x z Hz (le_int_l_weaken _ _ _ Hl Hlo)) as [Hzx Hxz].
  pose proof (le_lt_int _ _ _ Hl Hxz).
  pose proof (le_le_int _ _ _ Hzx Hh).
  lia.
Qed.

(** On a state the daemon can be in, both [int(brightness)] and
    [int(color_temp)] are defined and lie in 0..255. *)
Lemma light_state_ok_int (g : Globals) :
  light_state_ok g ->
  exists b t, int (brightness g) = inr b /\ int (color_temp g) = inr t /\
              0 <= b <= 255 /\ 0 <= t <= 255.
Proof.
  intros [Hct Hb].
  destruct (int_in_range 0 255 _ (Z.le_refl 0) Hct) as [t [Ht Htr]].
  destruct Hb as [Hb | Hb].
  - exists 0, t. rewrite Hb. repeat split; try assumption; try lia.
  - destruct (int_in_range 1 255 _ ltac:(lia) Hb) as [b [Hb' Hbr]].
    exists b, t. repeat split; try assumption; lia.
Qed.

(** ** More on the input event loop *)

Lemma handle_events_app (p q : list event) (g : Globals) :
  handle_spacenav_events g (p ++ q) =
  handle_spacenav_events (handle_spacenav_events g p) q.
Proof.
  revert g. induction p as [ | ev p IH]; intros g; simpl.
  - reflexivity.
  - destruct (is_running g) eqn:Hrun; [ apply IH | ].
    destruct q; simpl; now rewrite ?Hrun.
Qed.

(** X1: a button event that is not a press ([pressed] other than 1), or
    that is for a button other than 0 and 1, changes nothing. *)
Theorem other_button_events_are_ignored (g : Globals) (button pressed : Z) :
  pressed <> 1 \/ (button <> 0 /\ button <> 1) ->
  handle_spacenav_event g (ButtonEvent button pressed) = g.
Proof.
  intros H. simpl.
  destruct (Z.eqb_spec pressed 1) as [Hp | Hp];
    destruct (Z.eqb_spec button 0) as [H0 | H0];
    destruct (Z.eqb_spec button 1) as [H1 | H1];
    simpl; try reflexivity; exfalso; lia.
Qed.

Lemma other_button_events_are_ignored_witness :
  (0 <> 1 \/ (1 <> 0 /\ 1 <> 1)) /\
  handle_spacenav_event
    {| color_temp := PyInt 40; brightness := PyInt 200;
       on := true; is_running := true |} (ButtonEvent 1 0) =
  {| color_temp := PyInt 40; brightness := PyInt 200;
     on := true; is_running := true |}.
Proof.
  split; [ left; discriminate | ].
  apply (other_button_events_are_ignored
           {| color_temp := PyInt 40; brightness := PyInt 200;
              on := true; is_running := true |} 1 0).
  left. discriminate.
Defined.

(** X3: a button-1 press makes the daemon forget what came before: the
    state after any later events is the one reached from the preset. *)
Theorem preset_forgets_history (g : Globals) (before after : list event) :
  is_running g = true ->
  handle_spacenav_events g (before ++ ButtonEvent 1 1 :: after) =
  handle_spacenav_events
    {| color_temp := PyInt 127; brightness := PyInt 255;
       on := true; is_running := true |} after.
Proof.
  intros Hrun. rewrite handle_events_app.
  pose proof (handle_events_is_running before g) as Hb. rewrite Hrun in Hb.
  remember (handle_spacenav_events g before) as g1.
  change (ButtonEvent 1 1 :: after) with ([ButtonEvent 1 1] ++ after).
  rewrite handle_events_app. simpl. now rewrite Hb.
Qed.

Lemma preset_forgets_history_witness :
  is_running initial = true /\
  handle_spacenav_events initial
    ([ButtonEvent 0 1; MotionEvent 0 0 0 40 0 (-900) 0]
       ++ ButtonEvent 1 1 :: [ButtonEvent 0 1]) =
  handle_spacenav_events
    {| color_temp := PyInt 127; brightness := PyInt 255;
       on := true; is_running := true |} [ButtonEvent 0 1].
Proof.
  split; [ reflexivity | ].
  apply (preset_forgets_history initial
           [ButtonEvent 0 1; MotionEvent 0 0 0 40 0 (-900) 0]
           [ButtonEvent 0 1]).
  reflexivity.
Defined.

(** X4: motion events never switch the light: whatever they do to the
    two values, [on] is after a sequence of them what it was before. *)
Theorem motion_never_switches (g : Globals) (polls : list event) :
  forallb is_motion polls = true ->
  on (handle_spacenav_events g polls) = on g.
Proof.
  revert g. induction polls as [ | ev rest IH]; intros g Hm; simpl.
  - reflexivity.
  - apply andb_prop in Hm as [Hev Hrest].
    destruct (is_running g); [ | reflexivity ].
    rewrite (IH _ Hrest).
    destruct ev; try discriminate Hev. simpl.
    destruct (on g) eqn:Hon; [ | exact Hon ].
    destruct (ne _ _ || ne _ _); [ reflexivity | exact Hon ].
Qed.

Lemma motion_never_switches_witness :
  let g := handle_spacenav_events initial [ButtonEvent 1 1] in
  let polls := [MotionEvent 0 0 0 900 0 12 0; MotionEvent 0 0 0 (-3) 0 7 0] in
  forallb is_motion polls = true /\
  on (handle_spacenav_events g polls) = on g.
Proof.
  split; [ reflexivity | ].
  apply (motion_never_switches
           (handle_spacenav_events initial [ButtonEvent 1 1])
           [MotionEvent 0 0 0 900 0 12 0; MotionEvent 0 0 0 (-3) 0 7 0]).
  reflexivity.
Defined.

(** X5: the floor of 1 is reached with the first motion event handled
    while the light is on: from any state the daemon can be in, such an
    event leaves 1 <= brightness <= 255, also from the initial 0. *)
Theorem motion_establishes_floor (g : Globals) (x y z rx ry rz period : Z) :
  light_state_ok g ->
  on g = true ->
  in_range 1 255
    (brightness (handle_spacenav_event g (MotionEvent x y z rx ry rz period))).
Proof.
  intros [_ Hb] Hon. simpl. rewrite Hon.
  set (new_b := max (PyInt 1) (min (PyInt 255) (sub (brightness g) (div_300 rx)))).
  assert (Hnew : in_range 1 255 new_b)
    by (apply max_min_clamped; lia).
  destruct (ne _ _ || ne new_b (brightness g)) eqn:Hcommit; [ exact Hnew | ].
  destruct Hb as [Hb | Hb]; [ exfalso | exact Hb ].
  apply orb_false_elim in Hcommit as [_ Hne].
  rewrite Hb in Hne. unfold ne in Hne.
  destruct Hnew as [Hl _]. apply le_int_l_cases in Hl.
  destruct Hl as [Hl | Hl].
  - now rewrite (compare_mono_Gt _ _ _ Hl (ltac:(lia) : 0 <= 1)) in Hne.
  - now rewrite (compare_Eq_Gt _ _ _ Hl (ltac:(lia) : 0 < 1)) in Hne.
Qed.

Lemma motion_establishes_floor_witness :
  let g := handle_spacenav_events initial [ButtonEvent 0 1] in
  (light_state_ok g /\ on g = true) /\
  in_range 1 255
    (brightness (handle_spacenav_event g (MotionEvent 0 0 0 0 0 0 0))).
Proof.
  assert (Hok : light_state_ok
                  (handle_spacenav_events initial [ButtonEvent 0 1])).
  { split; [ split; reflexivity | left; reflexivity ]. }
  split; [ split; [ exact Hok | reflexivity ] | ].
  exact (motion_establishes_floor
           (handle_spacenav_events initial [ButtonEvent 0 1])
           0 0 0 0 0 0 0 Hok eq_refl).
Defined.

(** X6: in every state the daemon reaches, [int(brightness)] and
    [int(color_temp)], the values line 90 sends, are defined (the stored
    numbers are never NaN or infinite) and lie in 0..255. *)
Theorem reachable_values_fit_a_byte (polls : list event) :
  let g := handle_spacenav_events initial polls in
  exists b t : Z,
    int (brightness g) = inr b /\ int (color_temp g) = inr t /\
    0 <= b <= 255 /\ 0 <= t <= 255.
Proof.
  cbv zeta. apply light_state_ok_int, handle_events_ok.
  split; [ split; reflexivity | left; reflexivity ].
Qed.

(** The clamped difference with [0 / 300.0], on the integers 0..255, by
    enumeration. *)
Lemma zero_turn_table :
  forallb
    (fun n =>
       let v := PyInt (Z.of_nat n) in
       negb (ne (max (PyInt 0) (min (PyInt 255) (sub v (div_300 0)))) v)
       && ((Z.of_nat n <? 1)
           || negb (ne (max (PyInt 1) (min (PyInt 255) (sub v (div_300 0)))) v)))
    (seq 0 256) = true.
Proof.
  vm_compute. reflexivity.
Qed.

Lemma zero_turn_keeps (lo : Z) (a : num) :
  lo = 0 \/ lo = 1 ->
  in_range lo 255 a ->
  ne (max (PyInt lo) (min (PyInt 255) (sub a (div_300 0)))) a = false.
Proof.
  intros Hlo Ha.
  destruct a as [z | f].
  - assert (Hz : lo <= z <= 255).
    { destruct Ha as [Hl Hh]. rewrite le_int_int in Hl, Hh.
      apply Z.leb_le in Hl, Hh. lia. }
    pose proof (proj1 (forallb_forall _ _) zero_turn_table (Z.to_nat z)) as Ht.
    cbv beta zeta in Ht. rewrite Z2Nat.id in Ht by lia.
    assert (Hin : In (Z.to_nat z) (seq 0 256)) by (apply in_seq; lia).
    apply Ht in Hin. apply andb_prop in Hin as [H0 H1].
    destruct Hlo as [-> | ->].
    + now apply negb_true_iff in H0.
    + apply orb_prop in H1 as [H1 | H1].
      * apply Z.ltb_lt in H1. lia.
      * now apply negb_true_iff in H1.
  - change (div_300 0) with (PyFloat (S754_zero false)).
    destruct f as [s | s | | s m e].
    + destruct Hlo as [-> | ->].
      * destruct s; vm_compute; reflexivity.
      * destruct Ha as [Hl _]. destruct s; discriminate Hl.
    + destruct Ha as [Hl Hh]. destruct s; discriminate.
    + destruct Ha as [Hl _]. discriminate Hl.
    + change (sub (PyFloat (S754_finite s m e)) (PyFloat (S754_zero false)))
        with (PyFloat (S754_finite s m e)).
      apply max_min_clamped; [ lia | exact Ha ].
Qed.

(** X7: a motion event without rotation about x and z changes nothing
    once brightness is within 1..255 (and color_temp within 0..255):
    subtracting [0 / 300.0] and clamping gives the stored values back. *)
Theorem still_motion_changes_nothing (g : Globals) (x y z ry period : Z) :
  in_range 0 255 (color_temp g) ->
  in_range 1 255 (brightness g) ->
  handle_spacenav_event g (MotionEvent x y z 0 ry 0 period) = g.
Proof.
  intros Hct Hb. simpl.
  destruct (on g); [ | reflexivity ].
  rewrite (zero_turn_keeps 0 _ (or_introl eq_refl) Hct).
  rewrite (zero_turn_keeps 1 _ (or_intror eq_refl) Hb).
  reflexivity.
Qed.

Lemma still_motion_changes_nothing_witness :
  let g := handle_spacenav_events initial
             [ButtonEvent 1 1; MotionEvent 0 0 0 7 0 45 0] in
  (in_range 0 255 (color_temp g) /\ in_range 1 255 (brightness g)) /\
  handle_spacenav_event g (MotionEvent 3 (-4) 5 0 17 0 8) = g.
Proof.
  assert (Hct : in_range 0 255
                  (color_temp (handle_spacenav_events initial
                     [ButtonEvent 1 1; MotionEvent 0 0 0 7 0 45 0])))
    by (split; vm_compute; reflexivity).
  assert (Hb : in_range 1 255
                 (brightness (handle_spacenav_events initial
                    [ButtonEvent 1 1; MotionEvent 0 0 0 7 0 45 0])))
    by (split; vm_compute; reflexivity).
  split; [ split; assumption | ].
  exact (still_motion_changes_nothing
           (handle_spacenav_events initial
              [ButtonEvent 1 1; MotionEvent 0 0 0 7 0 45 0])
           3 (-4) 5 17 8 Hct Hb).
Defined.

(** ** Opening the SpaceNav driver *)

Lemma open_spacenav_failure (g : Globals) (rest : list bool) :
  open_spacenav g (false :: rest) =
  if is_running g
  then (Log "No connection to the SpaceNav driver. Retrying..."
          :: Sleep seconds_1 :: fst (open_spacenav g rest),
        snd (open_spacenav g rest))
  else ([], NotRunning).
Proof.
  simpl. destruct (is_running g); [ | reflexivity ].
  now destruct (open_spacenav g rest).
Qed.

Lemma open_spacenav_failures (g : Globals) (n : nat) (rest : list bool) :
  is_running g = true ->
  open_spacenav g (repeat false n ++ rest) =
  (List.concat (repeat [Log "No connection to the SpaceNav driver. Retrying...";
                   Sleep seconds_1] n)
     ++ fst (open_spacenav g rest),
   snd (open_spacenav g rest)).
Proof.
  intros Hrun. induction n as [ | n IH].
  - simpl. now destruct (open_spacenav g rest).
  - change (repeat false (S n) ++ rest) with (false :: (repeat false n ++ rest)).
    rewrite open_spacenav_failure, Hrun, IH. reflexivity.
Qed.

(** X8: when [spacenav.open()] fails n times and then succeeds, the loop
    logs one retry line and sleeps 1 after each failure, n times, logs
    that the connection is established, and is left; what the schedule
    holds after the success is not consulted. *)
Theorem open_retries_until_success (g : Globals) (n : nat) (later : list bool) :
  is_running g = true ->
  open_spacenav g (repeat false n ++ true :: later) =
  (List.concat (repeat [Log "No connection to the SpaceNav driver. Retrying...";
                   Sleep seconds_1] n)
     ++ [Log "Connection to SpaceNav driver established."],
   Opened).
Proof.
  intros Hrun. rewrite (open_spacenav_failures g n _ Hrun).
  simpl. now rewrite Hrun.
Qed.

Lemma open_retries_until_success_witness :
  is_running initial = true /\
  open_spacenav initial (repeat false 2 ++ true :: [false; true]) =
  (List.concat (repeat [Log "No connection to the SpaceNav driver. Retrying...";
                   Sleep seconds_1] 2)
     ++ [Log "Connection to SpaceNav driver established."],
   Opened).
Proof.
  split; [ reflexivity | ].
  apply (open_retries_until_success initial 2 [false; true]). reflexivity.
Defined.

(** X9: the loop never gives up and nothing is polled meanwhile: after
    any number n of failed [spacenav.open()] calls the coroutine has
    logged and slept n times, is still retrying, and the globals are as
    they were, whatever events the device would deliver. *)
Theorem open_never_gives_up (g : Globals) (n : nat) (polls : list event) :
  is_running g = true ->
  open_spacenav g (repeat false n) =
    (List.concat (repeat [Log "No connection to the SpaceNav driver. Retrying...";
                     Sleep seconds_1] n), Retrying) /\
  snd (spacenav_coroutine g (repeat false n) polls) = g.
Proof.
  intros Hrun.
  assert (Hopen : open_spacenav g (repeat false n) =
    (List.concat (repeat [Log "No connection to the SpaceNav driver. Retrying...";
                     Sleep seconds_1] n), Retrying)).
  { rewrite <- (app_nil_r (repeat false n)).
    rewrite (open_spacenav_failures g n [] Hrun).
    simpl. rewrite Hrun. simpl. now rewrite app_nil_r. }
  split; [ exact Hopen | ].
  unfold spacenav_coroutine. now rewrite Hopen.
Qed.

Lemma open_never_gives_up_witness :
  is_running initial = true /\
  open_spacenav initial (repeat false 3) =
    (List.concat (repeat [Log "No connection to the SpaceNav driver. Retrying...";
                     Sleep seconds_1] 3), Retrying) /\
  snd (spacenav_coroutine initial (repeat false 3) [ButtonEvent 1 1]) = initial.
Proof.
  split; [ reflexivity | ].
  apply (open_never_gives_up initial 3 [ButtonEvent 1 1]). reflexivity.
Defined.

(** ** The sync loop and the globals *)

Lemma moved_refl (g : Globals) : moved_by_input g g.
Proof.
  now exists [].
Qed.

Lemma moved_step (g g' : Globals) (polls : list event) :
  moved_by_input g g' ->
  moved_by_input g (handle_spacenav_events g' polls).
Proof.
  intros [p ->]. exists (p ++ polls). symmetry. apply handle_events_app.
Qed.

Lemma moved_trans (g1 g2 g3 : Globals) :
  moved_by_input g1 g2 -> moved_by_input g2 g3 -> moved_by_input g1 g3.
Proof.
  intros H12 [p ->]. now apply moved_step.
Qed.

Lemma moved_ok (g g' : Globals) :
  moved_by_input g g' -> light_state_ok g -> light_state_ok g'.
Proof.
  intros [p ->]. apply handle_events_ok.
Qed.

Lemma update_leds_moved (g : Globals) (l : baseline) (c : cycle_env) :
  moved_by_input g (store_of (update_leds g l c)).
Proof.
  destruct (update_leds_cases g l c)
    as [[_ H] | [[_ [e H]] | [_ [b [t [_ [_ [[e H] | H]]]]]]]];
    rewrite H; unfold store_of; simpl;
    repeat apply moved_step; apply moved_refl.
Qed.

Lemma connected_loop_moved (cs : list cycle_env) (g : Globals) (l : baseline) :
  moved_by_input g (store_of (connected_loop g l cs)).
Proof.
  revert g l. induction cs as [ | c cs IH]; intros g l; simpl.
  - apply moved_refl.
  - destruct (is_running g); [ | apply moved_refl ].
    pose proof (update_leds_moved g l c) as Hu.
    destruct (update_leds g l c) as [[[t1 g1] l1] [e | ]];
      unfold store_of in Hu; simpl in Hu.
    + exact Hu.
    + specialize (IH (handle_spacenav_events g1 (at_sleep c)) l1).
      destruct (connected_loop _ l1 cs) as [[[t2 g3] l3] r'].
      unfold store_of in *; simpl in *.
      eapply moved_trans; [ | exact IH ].
      now apply moved_step.
Qed.

Lemma try_block_moved (verbose : bool) (ip : string)
    (g : Globals) (l : baseline) (a : attempt_env) :
  moved_by_input g (store_of (try_block verbose ip g l a)).
Proof.
  unfold try_block.
  destruct (raised (at_connect a)).
  - unfold store_of; simpl. apply moved_step, moved_refl.
  - match goal with
    | |- context [connected_loop ?g2 l (cycles a)] =>
        pose proof (connected_loop_moved (cycles a) g2 l) as Hc;
        destruct (connected_loop g2 l (cycles a)) as [[[t g3] l3] r]
    end.
    unfold store_of in *; simpl in *.
    eapply moved_trans; [ | exact Hc ].
    destruct (connected a); repeat apply moved_step; apply moved_refl.
Qed.

Lemma attempt_moved (verbose : bool) (ip : string)
    (g : Globals) (l : baseline) (a : attempt_env) :
  moved_by_input g (store_of (attempt verbose ip g l a)).
Proof.
  unfold attempt.
  pose proof (try_block_moved verbose ip g l a) as Ht.
  destruct (try_block verbose ip g l a) as [[[t g1] l1] r].
  unfold store_of in *; simpl in *.
  destruct r; try destruct (raised (at_close a)); simpl;
    repeat apply moved_step; exact Ht.
Qed.

Lemma set_led_settings_from_moved (verbose : bool) (ip : string)
    (attempts : list attempt_env) (g : Globals) (l : baseline) :
  moved_by_input g (store_of (set_led_settings_from verbose ip g l attempts)).
Proof.
  revert g l. induction attempts as [ | a rest IH]; intros g l; simpl.
  - apply moved_refl.
  - destruct (is_running g); [ | apply moved_refl ].
    pose proof (attempt_moved verbose ip g l a) as Ha.
    destruct (attempt verbose ip g l a) as [[[t g1] l1] r].
    unfold store_of in Ha; simpl in Ha.
    destruct r; try exact Ha.
    specialize (IH g1 l1).
    destruct (set_led_settings_from verbose ip g1 l1 rest) as [[[t' g2] l2] r'].
    unfold store_of in *; simpl in *.
    eapply moved_trans; eassumption.
Qed.

(** ** What reaches the fixture *)

Lemma update_leds_segment_in_range (g : Globals) (l : baseline) (c : cycle_env) :
  light_state_ok g ->
  Forall segment_in_range (trace_of (update_leds g l c)).
Proof.
  intros Hok.
  assert (Hok1 : light_state_ok
                   (handle_spacenav_events g (polled (at_master c))))
    by now apply handle_events_ok.
  destruct (light_state_ok_int _ Hok1) as [b' [t' [Hb' [Ht' [Hbr Htr]]]]].
  destruct (update_leds_cases g l c)
    as [[_ H] | [[_ [e H]] | [_ [b [t [Hb [Ht [[e H] | H]]]]]]]];
    rewrite H; unfold trace_of; simpl;
    repeat constructor; simpl; try exact I;
    rewrite Hb' in Hb; rewrite Ht' in Ht; injection Hb as <-; injection Ht as <-;
    lia.
Qed.

Lemma connected_loop_segment_in_range (cs : list cycle_env) (g : Globals)
    (l : baseline) :
  light_state_ok g ->
  Forall segment_in_range (trace_of (connected_loop g l cs)).
Proof.
  revert g l. induction cs as [ | c cs IH]; intros g l Hok; simpl.
  - constructor.
  - destruct (is_running g); [ | constructor ].
    pose proof (update_leds_segment_in_range g l c Hok) as Hu.
    pose proof (moved_ok _ _ (update_leds_moved g l c) Hok) as Hm.
    destruct (update_leds g l c) as [[[t1 g1] l1] [e | ]];
      unfold trace_of, store_of in Hu, Hm; simpl in Hu, Hm.
    + exact Hu.
    + specialize (IH (handle_spacenav_events g1 (at_sleep c)) l1
                     (handle_events_ok _ _ Hm)).
      destruct (connected_loop _ l1 cs) as [[[t2 g3] l3] r'].
      unfold trace_of in *; simpl in *.
      apply Forall_app. split; [ exact Hu | ].
      constructor; [ exact I | exact IH ].
Qed.

Lemma try_block_segment_in_range (verbose : bool) (ip : string)
    (g : Globals) (l : baseline) (a : attempt_env) :
  light_state_ok g ->
  Forall segment_in_range (trace_of (try_block verbose ip g l a)).
Proof.
  intros Hok. unfold try_block.
  destruct (raised (at_connect a)).
  - repeat constructor.
  - match goal with
    | |- context [connected_loop ?g2 l (cycles a)] =>
        assert (Hok2 : light_state_ok g2)
          by (destruct (connected a); repeat apply handle_events_ok; exact Hok);
        pose proof (connected_loop_segment_in_range (cycles a) g2 l Hok2) as Hc;
        destruct (connected_loop g2 l (cycles a)) as [[[t g3] l3] r]
    end.
    unfold trace_of in *; simpl in *.
    do 2 (constructor; [ exact I | ]).
    apply Forall_app. split; [ | exact Hc ].
    unfold settle. destruct (connected a), verbose; repeat constructor.
Qed.

Lemma attempt_segment_in_range (verbose : bool) (ip : string)
    (g : Globals) (l : baseline) (a : attempt_env) :
  light_state_ok g ->
  Forall segment_in_range (trace_of (attempt verbose ip g l a)).
Proof.
  intros Hok. unfold attempt.
  pose proof (try_block_segment_in_range verbose ip g l a Hok) as Ht.
  destruct (try_block verbose ip g l a) as [[[t g1] l1] r].
  unfold trace_of in *; simpl in *.
  destruct r; try destruct (raised (at_close a)); simpl;
    rewrite ?Forall_app; repeat split; try exact Ht; repeat constructor.
Qed.

Lemma set_led_settings_from_segment_in_range (verbose : bool) (ip : string)
    (attempts : list attempt_env) (g : Globals) (l : baseline) :
  light_state_ok g ->
  Forall segment_in_range
    (trace_of (set_led_settings_from verbose ip g l attempts)).
Proof.
  revert g l. induction attempts as [ | a rest IH]; intros g l Hok; simpl.
  - constructor.
  - destruct (is_running g); [ | constructor ].
    pose proof (attempt_segment_in_range verbose ip g l a Hok) as Ha.
    pose proof (moved_ok _ _ (attempt_moved verbose ip g l a) Hok) as Hm.
    destruct (attempt verbose ip g l a) as [[[t g1] l1] r].
    unfold trace_of, store_of in Ha, Hm; simpl in Ha, Hm.
    destruct r; try exact Ha.
    specialize (IH g1 l1 Hm).
    destruct (set_led_settings_from verbose ip g1 l1 rest) as [[[t' g2] l2] r'].
    unfold trace_of in *; simpl in *.
    apply Forall_app. now split.
Qed.

(** X10: whatever the device delivers and the fixture answers, every
    segment update the daemon ever sends carries a brightness and a cct
    within 0..255. *)
Theorem segment_updates_fit_a_byte (verbose : bool) (ip : string)
    (first_polls : list event) (attempts : list attempt_env) :
  Forall segment_in_range
    (fst (fst (main verbose ip first_polls attempts))).
Proof.
  unfold main, set_led_settings.
  pose proof (set_led_settings_from_segment_in_range verbose ip attempts
                (handle_spacenav_events initial first_polls) no_baseline) as H.
  destruct (set_led_settings_from _ _ _ _ _) as [[[t g] l] r].
  unfold trace_of in H; simpl in *.
  constructor; [ exact I | ].
  apply Forall_app. split.
  - apply H, handle_events_ok.
    split; [ split; reflexivity | left; reflexivity ].
  - destruct r; repeat constructor.
Qed.

(** ** The actions of the sync loop *)

Section SyncActions.

(** Whatever holds of each kind of action the loop is written to perform
    holds of every action it performs. *)
Variable ip : string.
Variable P : action -> Prop.
Hypothesis P_new : P (NewWLED ip).
Hypothesis P_connect : P (Connect seconds_5).
Hypothesis P_connected : P (Log "Connected to WLED!").
Hypothesis P_settle : P (Sleep seconds_0_5).
Hypothesis P_master : forall o, P (Master o 255).
Hypothesis P_segment : forall b t, P (Segment 0 b t).
Hypothesis P_pace : P (Sleep seconds_0_01).
Hypothesis P_error : forall e, P (Log (error_message e)).
Hypothesis P_close : P Close.
Hypothesis P_cooldown : P (Sleep seconds_1).

Lemma update_leds_actions (g : Globals) (l : baseline) (c : cycle_env) :
  Forall P (trace_of (update_leds g l c)).
Proof.
  destruct (update_leds_cases g l c)
    as [[_ H] | [[_ [e H]] | [_ [b [t [_ [_ [[e H] | H]]]]]]]];
    rewrite H; unfold trace_of; simpl;
    repeat constructor; auto.
Qed.

Lemma connected_loop_actions (cs : list cycle_env) (g : Globals) (l : baseline) :
  Forall P (trace_of (connected_loop g l cs)).
Proof.
  revert g l. induction cs as [ | c cs IH]; intros g l; simpl.
  - constructor.
  - destruct (is_running g); [ | constructor ].
    pose proof (update_leds_actions g l c) as Hu.
    destruct (update_leds g l c) as [[[t1 g1] l1] [e | ]];
      unfold trace_of in Hu; simpl in Hu.
    + exact Hu.
    + specialize (IH (handle_spacenav_events g1 (at_sleep c)) l1).
      destruct (connected_loop _ l1 cs) as [[[t2 g3] l3] r'].
      unfold trace_of in *; simpl in *.
      apply Forall_app. split; [ exact Hu | ].
      constructor; [ exact P_pace | exact IH ].
Qed.

Lemma try_block_actions (verbose : bool)
    (g : Globals) (l : baseline) (a : attempt_env) :
  Forall P (trace_of (try_block verbose ip g l a)).
Proof.
  unfold try_block.
  destruct (raised (at_connect a)).
  - repeat constructor; auto.
  - match goal with
    | |- context [connected_loop ?g2 l (cycles a)] =>
        pose proof (connected_loop_actions (cycles a) g2 l) as Hc;
        destruct (connected_loop g2 l (cycles a)) as [[[t g3] l3] r]
    end.
    unfold trace_of in *; simpl in *.
    do 2 (constructor; [ assumption | ]).
    apply Forall_app. split; [ | exact Hc ].
    unfold settle. destruct (connected a), verbose; repeat constructor; auto.
Qed.

Lemma attempt_actions (verbose : bool)
    (g : Globals) (l : baseline) (a : attempt_env) :
  Forall P (trace_of (attempt verbose ip g l a)).
Proof.
  unfold attempt.
  pose proof (try_block_actions verbose g l a) as Ht.
  destruct (try_block verbose ip g l a) as [[[t g1] l1] r].
  unfold trace_of in *; simpl in *.
  destruct r; try destruct (raised (at_close a)); simpl;
    rewrite ?Forall_app; repeat split; try exact Ht; repeat constructor; auto.
Qed.

Lemma set_led_settings_from_actions (verbose : bool)
    (attempts : list attempt_env) (g : Globals) (l : baseline) :
  Forall P (trace_of (set_led_settings_from verbose ip g l attempts)).
Proof.
  revert g l. induction attempts as [ | a rest IH]; intros g l; simpl.
  - constructor.
  - destruct (is_running g); [ | constructor ].
    pose proof (attempt_actions verbose g l a) as Ha.
    destruct (attempt verbose ip g l a) as [[[t g1] l1] r].
    unfold trace_of in Ha; simpl in Ha.
    destruct r; try exact Ha.
    specialize (IH g1 l1).
    destruct (set_led_settings_from verbose ip g1 l1 rest) as [[[t' g2] l2] r'].
    unfold trace_of in *; simpl in *.
    apply Forall_app. now split.
Qed.

End SyncActions.

(** X11: the sync loop performs nothing but the actions it is written
    for: it makes clients for the given host only, connects with the
    timeout 5, sleeps 0.01, 0.5 or 1 and nothing else, addresses segment
    0 only, and logs only the connection line and the two error lines. *)
Theorem sync_loop_actions (verbose : bool) (ip : string) (g : Globals)
    (attempts : list attempt_env) :
  Forall (sync_action ip) (trace_of (set_led_settings verbose ip g attempts)).
Proof.
  apply set_led_settings_from_actions; simpl; auto.
  intros e. right. now exists e.
Qed.

(** The error lines are not the line "Daemon stopped". *)
Lemma error_message_not_stopped (e : exn) :
  error_message e <> "Daemon stopped"%string.
Proof.
  destruct e; simpl; discriminate.
Qed.

(** X12: [main] logs "Daemon started" first and never logs "Daemon
    stopped": the line after the gather is out of reach, since
    [set_led_settings] does not return. *)
Theorem main_never_logs_stopped (verbose : bool) (ip : string)
    (first_polls : list event) (attempts : list attempt_env) :
  let t := fst (fst (main verbose ip first_polls attempts)) in
  hd_error t = Some (Log "Daemon started") /\
  ~ In (Log "Daemon stopped") t.
Proof.
  cbv zeta. unfold main, set_led_settings.
  pose proof (set_led_settings_from_actions ip
                (fun a => a <> Log "Daemon stopped")) as Hact.
  specialize (Hact ltac:(discriminate) ltac:(discriminate) ltac:(discriminate)
                   ltac:(discriminate) ltac:(discriminate) ltac:(discriminate)
                   ltac:(discriminate)
                   (fun e H => error_message_not_stopped e
                                 (f_equal (fun a => match a with
                                                    | Log m => m
                                                    | _ => ""%string
                                                    end) H))
                   ltac:(discriminate) ltac:(discriminate)
                   verbose attempts
                   (handle_spacenav_events initial first_polls) no_baseline).
  pose proof (set_led_settings_from_running verbose ip attempts
                (handle_spacenav_events initial first_polls) no_baseline) as Hrun.
  rewrite handle_events_is_running in Hrun. specialize (Hrun eq_refl).
  cbv zeta in Hrun.
  destruct (set_led_settings_from _ _ _ _ _) as [[[t g] l] r].
  unfold trace_of, end_of in *; simpl in *.
  split; [ reflexivity | ].
  intros [Hhd | Hin]; [ discriminate Hhd | ].
  apply in_app_or in Hin as [Hin | Hin].
  - rewrite Forall_forall in Hact. now apply (Hact _ Hin).
  - destruct r; simpl in Hin; try contradiction.
    now destruct Hrun as [_ Hr].
Qed.

(** ** Pushing only on change *)

Lemma connected_loop_idle (cs : list cycle_env) (g : Globals) (l : baseline) :
  is_running g = true ->
  needs_update g l = false ->
  Forall (fun c => at_sleep c = []) cs ->
  connected_loop g l cs =
    (repeat (Sleep seconds_0_01) (List.length cs), g, l, Pending).
Proof.
  intros Hrun Hsame Hquiet.
  induction Hquiet as [ | c cs Hc _ IH]; simpl.
  - now rewrite Hrun.
  - rewrite Hrun.
    rewrite (proj2 (update_leds_trace g l c) Hsame).
    rewrite Hc. simpl handle_spacenav_events. now rewrite IH.
Qed.

(** X13: while the state equals the baseline and the input loop polls
    nothing, the inner loop only sleeps: over any number of passes it
    calls the fixture not once, so it cannot fail whatever the fixture
    would answer, and a lost connection goes unnoticed. *)
Theorem idle_loop_only_sleeps (cs : list cycle_env) (g : Globals) (l : baseline) :
  is_running g = true ->
  needs_update g l = false ->
  Forall (fun c => at_sleep c = []) cs ->
  connected_loop g l cs =
    (repeat (Sleep seconds_0_01) (List.length cs), g, l, Pending).
Proof.
  exact (connected_loop_idle cs g l).
Qed.

Lemma idle_loop_only_sleeps_witness :
  let failing := {| polled := []; raised := Some (Error "unreachable") |} in
  let c := {| at_master := failing; at_segment := failing; at_sleep := [] |} in
  (is_running initial = true /\
   needs_update initial (baseline_of initial) = false /\
   Forall (fun c => at_sleep c = []) [c; c; c]) /\
  connected_loop initial (baseline_of initial) [c; c; c] =
    (repeat (Sleep seconds_0_01) (List.length [c; c; c]),
     initial, baseline_of initial, Pending).
Proof.
  split; [ repeat split; repeat constructor | ].
  apply (idle_loop_only_sleeps
           [ {| at_master := {| polled := []; raised := Some (Error "unreachable") |};
                at_segment := {| polled := []; raised := Some (Error "unreachable") |};
                at_sleep := [] |};
             {| at_master := {| polled := []; raised := Some (Error "unreachable") |};
                at_segment := {| polled := []; raised := Some (Error "unreachable") |};
                at_sleep := [] |};
             {| at_master := {| polled := []; raised := Some (Error "unreachable") |};
                at_segment := {| polled := []; raised := Some (Error "unreachable") |};
                at_sleep := [] |} ]
           initial (baseline_of initial)).
  - reflexivity.
  - reflexivity.
  - repeat constructor.
Defined.

(** A state the daemon can be in equals itself as a baseline. *)
Lemma needs_update_own_baseline (g : Globals) :
  light_state_ok g -> needs_update g (baseline_of g) = false.
Proof.
  intros [[Hct _] Hb]. unfold needs_update, baseline_of; simpl.
  apply le_int_l_cases in Hct.
  assert (Hc : ne (color_temp g) (color_temp g) = false).
  { unfold ne. destruct Hct as [H | H]; now rewrite (compare_refl _ _ _ H). }
  assert (Hbb : ne (brightness g) (brightness g) = false).
  { destruct Hb as [-> | [Hb _]]; [ reflexivity | ].
    apply le_int_l_cases in Hb.
    unfold ne. destruct Hb as [H | H]; now rewrite (compare_refl _ _ _ H). }
  rewrite Hc, Hbb. now destruct (on g).
Qed.

(** X14: a state that differs from the baseline is pushed once.  With a
    fixture that answers and no event polled meanwhile, the inner loop
    sends one master update and one segment update in its first pass,
    takes the state as the new baseline, and then only sleeps. *)
Theorem changed_state_is_pushed_once (c : cycle_env) (cs : list cycle_env)
    (g : Globals) (l : baseline) :
  light_state_ok g ->
  is_running g = true ->
  needs_update g l = true ->
  Forall quiet_cycle (c :: cs) ->
  exists b t : Z,
    int (brightness g) = inr b /\ int (color_temp g) = inr t /\
    connected_loop g l (c :: cs) =
      (Master (on g) 255 :: Segment 0 b t
         :: repeat (Sleep seconds_0_01) (S (List.length cs)),
       g, baseline_of g, Pending).
Proof.
  intros Hok Hrun Hdiff Hquiet.
  destruct (light_state_ok_int g Hok) as [b [t [Hb [Ht _]]]].
  exists b, t. split; [ exact Hb | split; [ exact Ht | ] ].
  inversion Hquiet as [ | c' cs' [Hm [Hs Hz]] Hrest ]; subst.
  simpl. rewrite Hrun.
  rewrite (update_leds_undisturbed g l c b t Hm Hs Hb Ht), Hdiff, Hz.
  simpl handle_spacenav_events.
  rewrite (connected_loop_idle cs g (baseline_of g) Hrun
             (needs_update_own_baseline g Hok)).
  - reflexivity.
  - clear - Hrest. induction Hrest as [ | c0 cs0 [_ [_ Hz]] _ IH];
      constructor; assumption.
Qed.

Lemma changed_state_is_pushed_once_witness :
  let g := handle_spacenav_events initial [ButtonEvent 1 1] in
  let c := {| at_master := undisturbed; at_segment := undisturbed;
              at_sleep := [] |} in
  (light_state_ok g /\ is_running g = true /\
   needs_update g no_baseline = true /\ Forall quiet_cycle [c; c]) /\
  exists b t : Z,
    int (brightness g) = inr b /\ int (color_temp g) = inr t /\
    connected_loop g no_baseline [c; c] =
      (Master (on g) 255 :: Segment 0 b t
         :: repeat (Sleep seconds_0_01) (S (List.length [c])),
       g, baseline_of g, Pending).
Proof.
  assert (Hok : light_state_ok
                  (handle_spacenav_events initial [ButtonEvent 1 1])).
  { split; [ split; reflexivity | right; split; reflexivity ]. }
  assert (Hq : Forall quiet_cycle
                 [ {| at_master := undisturbed; at_segment := undisturbed;
                      at_sleep := [] |};
                   {| at_master := undisturbed; at_segment := undisturbed;
                      at_sleep := [] |} ]).
  { repeat constructor. }
  split; [ repeat split; try exact Hq; apply Hok | ].
  exact (changed_state_is_pushed_once
           {| at_master := undisturbed; at_segment := undisturbed;
              at_sleep := [] |}
           [ {| at_master := undisturbed; at_segment := undisturbed;
                at_sleep := [] |} ]
           (handle_spacenav_events initial [ButtonEvent 1 1])
           no_baseline Hok eq_refl eq_refl Hq).
Defined.

(** X15: an exception leaves a pass over lines 88-95 only while it is
    pushing, and the baseline is then kept as it was; if the state is
    still the same afterwards, the next pass pushes it again. *)
Theorem failed_push_is_pushed_again (g : Globals) (l : baseline)
    (c next : cycle_env) (e : exn) :
  end_of (update_leds g l c) = Some e ->
  let r := update_leds g l c in
  needs_update g l = true /\
  last_of r = l /\
  (store_of r = g ->
   exists more,
     trace_of (update_leds (store_of r) (last_of r) next) =
     Master (on g) 255 :: more).
Proof.
  intros Hend. cbv zeta.
  destruct (update_leds_cases g l c)
    as [[Hn H] | [[Hn [e' H]] | [Hn [b [t [_ [_ [[e' H] | H]]]]]]]];
    rewrite H in Hend |- *; unfold end_of, last_of, store_of in *;
    simpl in *; try discriminate Hend.
  all: split; [ exact Hn | split; [ reflexivity | ] ].
  all: intros ->; exact (proj1 (update_leds_trace g l next) Hn).
Qed.

Lemma failed_push_is_pushed_again_witness :
  let g := handle_spacenav_events initial [ButtonEvent 1 1] in
  let c := {| at_master := undisturbed;
              at_segment := {| polled := []; raised := Some TimeoutError |};
              at_sleep := [] |} in
  let next := {| at_master := undisturbed; at_segment := undisturbed;
                 at_sleep := [] |} in
  let r := update_leds g no_baseline c in
  end_of r = Some TimeoutError /\
  needs_update g no_baseline = true /\
  last_of r = no_baseline /\
  (store_of r = g ->
   exists more,
     trace_of (update_leds (store_of r) (last_of r) next) =
     Master (on g) 255 :: more).
Proof.
  split; [ reflexivity | ].
  apply (failed_push_is_pushed_again
           (handle_spacenav_events initial [ButtonEvent 1 1]) no_baseline
           {| at_master := undisturbed;
              at_segment := {| polled := []; raised := Some TimeoutError |};
              at_sleep := [] |}
           {| at_master := undisturbed; at_segment := undisturbed;
              at_sleep := [] |}
           TimeoutError).
  reflexivity.
Defined.

(** ** A fixture that answers *)

Lemma connected_loop_healthy (cs : list cycle_env) (g : Globals) (l : baseline) :
  light_state_ok g ->
  is_running g = true ->
  Forall (fun c => raised (at_master c) = None /\ raised (at_segment c) = None)
         cs ->
  end_of (connected_loop g l cs) = Pending.
Proof.
  intros Hok Hrun Hcs. revert g l Hok Hrun.
  induction Hcs as [ | c cs [Hm Hs] _ IH]; intros g l Hok Hrun; simpl.
  - now rewrite Hrun.
  - rewrite Hrun.
    pose proof (moved_ok _ _ (update_leds_moved g l c) Hok) as Hmoved.
    pose proof (update_leds_is_running g l c) as Hr.
    assert (Hend : end_of (update_leds g l c) = None).
    { unfold update_leds. destruct (needs_update g l); [ | reflexivity ].
      rewrite Hm.
      destruct (light_state_ok_int _
                  (handle_events_ok (polled (at_master c)) g Hok))
        as [b [t [Hb [Ht _]]]].
      rewrite Hb, Ht, Hs. reflexivity. }
    destruct (update_leds g l c) as [[[t1 g1] l1] r].
    unfold end_of, store_of in Hend, Hmoved, Hr; simpl in Hend, Hmoved, Hr.
    subst r.
    specialize (IH (handle_spacenav_events g1 (at_sleep c)) l1
                   (handle_events_ok _ _ Hmoved)).
    rewrite handle_events_is_running, Hr in IH. specialize (IH Hrun).
    destruct (connected_loop _ l1 cs) as [[[t2 g3] l3] r'].
    exact IH.
Qed.

(** X16: with a fixture that answers every call, the daemon connects
    once and stays connected: from a state it can be in, neither
    [int(brightness)] nor [int(color_temp)] can fail, so the inner loop
    is never left, the client is never closed, and nothing of the
    schedule beyond the first iteration is reached. *)
Theorem healthy_fixture_is_never_reconnected (verbose : bool) (ip : string)
    (g : Globals) (l : baseline) (a : attempt_env) (rest : list attempt_env) :
  light_state_ok g ->
  is_running g = true ->
  raised (at_connect a) = None ->
  Forall (fun c => raised (at_master c) = None /\ raised (at_segment c) = None)
         (cycles a) ->
  let tb := try_block verbose ip g l a in
  end_of tb = Pending /\
  set_led_settings_from verbose ip g l (a :: rest) =
    (trace_of tb, store_of tb, last_of tb, Running) /\
  ~ In Close (trace_of tb).
Proof.
  intros Hok Hrun Hconn Hcs. cbv zeta.
  assert (Hend : end_of (try_block verbose ip g l a) = Pending).
  { unfold try_block. rewrite Hconn.
    match goal with
    | |- context [connected_loop ?g2 l (cycles a)] =>
        assert (Hok2 : light_state_ok g2)
          by (destruct (connected a); repeat apply handle_events_ok; exact Hok);
        assert (Hrun2 : is_running g2 = true)
          by (destruct (connected a); now rewrite ?handle_events_is_running);
        pose proof (connected_loop_healthy (cycles a) g2 l Hok2 Hrun2 Hcs) as Hc;
        destruct (connected_loop g2 l (cycles a)) as [[[t g3] l3] r]
    end.
    exact Hc. }
  split; [ exact Hend | ].
  split.
  - simpl. rewrite Hrun. unfold attempt.
    destruct (try_block verbose ip g l a) as [[[t g1] l1] r].
    unfold end_of in Hend; simpl in Hend. subst r. reflexivity.
  - destruct (try_block_client verbose ip g l a) as [t' [Ht Hkeep]].
    rewrite Ht. intros [Hin | Hin]; [ discriminate Hin | ].
    rewrite Forall_forall in Hkeep. exact (Hkeep _ Hin).
Qed.

Lemma healthy_fixture_is_never_reconnected_witness :
  let c := {| at_master := {| polled := [ButtonEvent 0 1]; raised := None |};
              at_segment := undisturbed; at_sleep := [ButtonEvent 1 1] |} in
  let a := {| at_connect := undisturbed; connected := true; at_settle := [];
              cycles := [c; c]; at_close := undisturbed; at_cooldown := [] |} in
  let tb := try_block true "cctwled.local" initial no_baseline a in
  (light_state_ok initial /\ is_running initial = true /\
   raised (at_connect a) = None /\
   Forall (fun c => raised (at_master c) = None /\ raised (at_segment c) = None)
          (cycles a)) /\
  end_of tb = Pending /\
  set_led_settings_from true "cctwled.local" initial no_baseline [a; a] =
    (trace_of tb, store_of tb, last_of tb, Running) /\
  ~ In Close (trace_of tb).
Proof.
  assert (Hok : light_state_ok initial).
  { split; [ split; reflexivity | left; reflexivity ]. }
  split; [ repeat split; try apply Hok; repeat constructor | ].
  apply (healthy_fixture_is_never_reconnected true "cctwled.local"
           initial no_baseline
           {| at_connect := undisturbed; connected := true; at_settle := [];
              cycles :=
                [ {| at_master := {| polled := [ButtonEvent 0 1]; raised := None |};
                     at_segment := undisturbed; at_sleep := [ButtonEvent 1 1] |};
                  {| at_master := {| polled := [ButtonEvent 0 1]; raised := None |};
                     at_segment := undisturbed; at_sleep := [ButtonEvent 1 1] |} ];
              at_close := undisturbed; at_cooldown := [] |}
           [ {| at_connect := undisturbed; connected := true; at_settle := [];
              cycles :=
                [ {| at_master := {| polled := [ButtonEvent 0 1]; raised := None |};
                     at_segment := undisturbed; at_sleep := [ButtonEvent 1 1] |};
                  {| at_master := {| polled := [ButtonEvent 0 1]; raised := None |};
                     at_segment := undisturbed; at_sleep := [ButtonEvent 1 1] |} ];
              at_close := undisturbed; at_cooldown := [] |} ]).
  - exact Hok.
  - reflexivity.
  - reflexivity.
  - repeat constructor.
Defined.

(** ** The unguarded [finally] clause *)

(** X17: an exception of [led.close()] is not caught.  When the [try]
    block of an iteration has ended and the [close()] of its [finally]
    clause raises, the coroutine fails with that exception: [close()] is
    its last action, there is no cooldown and no further iteration. *)
Theorem close_error_is_fatal (verbose : bool) (ip : string)
    (g : Globals) (l : baseline) (a : attempt_env) (rest : list attempt_env)
    (e : exn) :
  is_running g = true ->
  end_of (try_block verbose ip g l a) <> Pending ->
  raised (at_close a) = Some e ->
  let r := set_led_settings_from verbose ip g l (a :: rest) in
  end_of r = Failed e /\
  (exists t, trace_of r = t ++ [Close]) /\
  r = set_led_settings_from verbose ip g l [a].
Proof.
  intros Hrun Hend Hclose. cbv zeta. simpl. rewrite Hrun. unfold attempt.
  destruct (try_block verbose ip g l a) as [[[t g1] l1] r].
  unfold end_of in Hend; simpl in Hend. rewrite Hclose.
  destruct r as [ | e' | ]; try (exfalso; now apply Hend);
    unfold end_of, trace_of; simpl.
  - repeat split. exists t. reflexivity.
  - repeat split. exists (t ++ [Log (error_message e')]).
    now rewrite <- app_assoc.
Qed.

Lemma close_error_is_fatal_witness :
  let a := {| at_connect := {| polled := []; raised := Some TimeoutError |};
              connected := false; at_settle := []; cycles := [];
              at_close := {| polled := []; raised := Some (Error "broken pipe") |};
              at_cooldown := [] |} in
  let r := set_led_settings_from false "cctwled.local" initial no_baseline [a; a] in
  (is_running initial = true /\
   end_of (try_block false "cctwled.local" initial no_baseline a) <> Pending /\
   raised (at_close a) = Some (Error "broken pipe")) /\
  end_of r = Failed (Error "broken pipe") /\
  (exists t, trace_of r = t ++ [Close]) /\
  r = set_led_settings_from false "cctwled.local" initial no_baseline [a].
Proof.
  split; [ repeat split; discriminate | ].
  apply (close_error_is_fatal false "cctwled.local" initial no_baseline
           {| at_connect := {| polled := []; raised := Some TimeoutError |};
              connected := false; at_settle := []; cycles := [];
              at_close := {| polled := []; raised := Some (Error "broken pipe") |};
              at_cooldown := [] |}
           [ {| at_connect := {| polled := []; raised := Some TimeoutError |};
              connected := false; at_settle := []; cycles := [];
              at_close := {| polled := []; raised := Some (Error "broken pipe") |};
              at_cooldown := [] |} ]
           (Error "broken pipe")).
  - reflexivity.
  - discriminate.
  - reflexivity.
Defined.

(** ** Verbosity *)

Lemma without_connected_log_app (t u : list action) :
  without_connected_log (t ++ u) =
  without_connected_log t ++ without_connected_log u.
Proof.
  apply filter_app.
Qed.

Lemma without_connected_log_id (t : list action) :
  Forall (fun a => is_connected_log a = false) t ->
  without_connected_log t = t.
Proof.
  induction 1 as [ | a t Ha _ IH]; simpl.
  - reflexivity.
  - rewrite Ha. simpl. now f_equal.
Qed.

Lemma error_log_is_kept (e : exn) :
  is_connected_log (Log (error_message e)) = false.
Proof.
  destruct e; reflexivity.
Qed.

Lemma try_block_verbose (ip : string) (g : Globals) (l : baseline)
    (a : attempt_env) :
  without_connected_log (trace_of (try_block true ip g l a)) =
    trace_of (try_block false ip g l a) /\
  store_of (try_block true ip g l a) = store_of (try_block false ip g l a) /\
  last_of (try_block true ip g l a) = last_of (try_block false ip g l a) /\
  end_of (try_block true ip g l a) = end_of (try_block false ip g l a).
Proof.
  unfold try_block.
  destruct (raised (at_connect a)).
  - repeat split.
  - match goal with
    | |- context [connected_loop ?g2 l (cycles a)] =>
        pose proof (connected_loop_Forall
                      (fun a => is_connected_log a = false)
                      (fun _ => eq_refl) (fun _ _ => eq_refl) (fun _ => eq_refl)
                      (cycles a) g2 l) as Hc;
        destruct (connected_loop g2 l (cycles a)) as [[[t g3] l3] r]
    end.
    unfold trace_of, store_of, last_of, end_of in *; simpl in *.
    repeat split.
    change (NewWLED ip :: Connect seconds_5 :: settle true a ++ t)
      with ([NewWLED ip; Connect seconds_5] ++ settle true a ++ t).
    rewrite !without_connected_log_app, (without_connected_log_id t Hc).
    simpl. do 3 f_equal. unfold settle. now destruct (connected a).
Qed.

Lemma attempt_verbose (ip : string) (g : Globals) (l : baseline)
    (a : attempt_env) :
  without_connected_log (trace_of (attempt true ip g l a)) =
    trace_of (attempt false ip g l a) /\
  store_of (attempt true ip g l a) = store_of (attempt false ip g l a) /\
  last_of (attempt true ip g l a) = last_of (attempt false ip g l a) /\
  end_of (attempt true ip g l a) = end_of (attempt false ip g l a).
Proof.
  unfold attempt.
  destruct (try_block_verbose ip g l a) as [Ht [Hs [Hl He]]].
  destruct (try_block true ip g l a) as [[[t1 g1] l1] r1].
  destruct (try_block false ip g l a) as [[[t2 g2] l2] r2].
  unfold trace_of, store_of, last_of, end_of in *; simpl in *.
  subst g2 l2 r2. subst t2.
  destruct r1 as [ | e | ]; try destruct (raised (at_close a)); simpl;
    repeat split;
    rewrite without_connected_log_app; f_equal;
    apply without_connected_log_id; repeat constructor;
    apply error_log_is_kept.
Qed.

Lemma set_led_settings_from_verbose (ip : string)
    (attempts : list attempt_env) (g : Globals) (l : baseline) :
  let loud := set_led_settings_from true ip g l attempts in
  let quiet := set_led_settings_from false ip g l attempts in
  without_connected_log (trace_of loud) = trace_of quiet /\
  store_of loud = store_of quiet /\
  last_of loud = last_of quiet /\
  end_of loud = end_of quiet.
Proof.
  cbv zeta. revert g l.
  induction attempts as [ | a rest IH]; intros g l; simpl.
  - repeat split.
  - destruct (is_running g); [ | repeat split ].
    destruct (attempt_verbose ip g l a) as [Ht [Hs [Hl He]]].
    destruct (attempt true ip g l a) as [[[t1 g1] l1] r1].
    destruct (attempt false ip g l a) as [[[t2 g2] l2] r2].
    unfold trace_of, store_of, last_of, end_of in *; simpl in *.
    subst g2 l2 r2. subst t2.
    destruct r1 as [ | e | ]; [ | repeat split | repeat split ].
    specialize (IH g1 l1). destruct IH as [It [Is [Il Ie]]].
    destruct (set_led_settings_from true ip g1 l1 rest) as [[[t3 g3] l3] r3].
    destruct (set_led_settings_from false ip g1 l1 rest) as [[[t4 g4] l4] r4].
    simpl in *. subst. repeat split.
    apply without_connected_log_app.
Qed.

(** X18: [verbose] changes the log and nothing else: under the same
    schedule the verbose run performs the actions of the quiet run plus
    the lines "Connected to WLED!", and leaves the same globals, the same
    baseline and the same status. *)
Theorem verbose_only_adds_log_lines (ip : string) (g : Globals)
    (attempts : list attempt_env) :
  let loud := set_led_settings true ip g attempts in
  let quiet := set_led_settings false ip g attempts in
  without_connected_log (trace_of loud) = trace_of quiet /\
  store_of loud = store_of quiet /\
  last_of loud = last_of quiet /\
  end_of loud = end_of quiet.
Proof.
  apply set_led_settings_from_verbose.
Qed.

(** ** The shutdown path *)



(** ** Errors that are not recovered, and the baseline across reconnections *)

(** C7 fails on the code when [led.close()] raises.  [led.connect()] times
    out, the timeout is logged, and the [close()] of the [finally] clause
    raises a transport error: no handler is around it, the exception
    leaves [set_led_settings], there is no cooldown and the next
    iteration of the schedule, with a fixture that answers, is never
    reached.  With a [close()] that returns, the same schedule recovers:
    sleep 1, a new client, and the state is pushed. *)
Theorem transport_error_at_close_is_fatal :
  let timed_out := {| polled := []; raised := Some TimeoutError |} in
  let broken := {| polled := []; raised := Some (Error "transport error") |} in
  let failing :=
    {| at_connect := timed_out; connected := false; at_settle := [];
       cycles := []; at_close := broken; at_cooldown := [] |} in
  let recovering :=
    {| at_connect := timed_out; connected := false; at_settle := [];
       cycles := []; at_close := undisturbed; at_cooldown := [] |} in
  let healthy :=
    {| at_connect := undisturbed; connected := true; at_settle := [];
       cycles := [ {| at_master := undisturbed; at_segment := undisturbed;
                      at_sleep := [] |} ];
       at_close := undisturbed; at_cooldown := [] |} in
  let r := set_led_settings false "cctwled.local" initial [failing; healthy] in
  let r' := set_led_settings false "cctwled.local" initial [recovering; healthy] in
  trace_of r =
    [ NewWLED "cctwled.local"; Connect seconds_5;
      Log "Connection to WLED timed out. Retrying..."; Close ] /\
  end_of r = Failed (Error "transport error") /\
  trace_of r' =
    [ NewWLED "cctwled.local"; Connect seconds_5;
      Log "Connection to WLED timed out. Retrying..."; Close; Sleep seconds_1;
      NewWLED "cctwled.local"; Connect seconds_5; Sleep seconds_0_5;
      Master false 255; Segment 0 0 0; Sleep seconds_0_01 ] /\
  end_of r' = Running.
Proof.
  cbv zeta. repeat split; vm_compute; reflexivity.
Qed.



(** In the schedule of the witness the state is on when the second
    connection stands, the baseline is still (off, 0, 0): both updates
    are sent. *)
Example reconnect_pushes_changed_state :
  let press := ButtonEvent 0 1 in
  let quiet := {| at_master := undisturbed; at_segment := undisturbed;
                  at_sleep := [] |} in
  let a1 :=
    {| at_connect := undisturbed; connected := true; at_settle := [];
       cycles :=
         [ {| at_master := undisturbed; at_segment := undisturbed;
              at_sleep := [press] |};
           {| at_master := undisturbed;
              at_segment := {| polled := [];
                               raised := Some (Error "connection lost") |};
              at_sleep := [] |} ];
       at_close := undisturbed; at_cooldown := [] |} in
  let a2 :=
    {| at_connect := undisturbed; connected := true; at_settle := [];
       cycles := [quiet]; at_close := undisturbed; at_cooldown := [] |} in
  trace_of (set_led_settings false "cctwled.local" initial [a1; a2]) =
    [ NewWLED "cctwled.local"; Connect seconds_5; Sleep seconds_0_5;
      Master false 255; Segment 0 0 0; Sleep seconds_0_01;
      Master true 255; Segment 0 0 0;
      Log "An error occurred while connecting to WLED: connection lost";
      Close; Sleep seconds_1;
      NewWLED "cctwled.local"; Connect seconds_5; Sleep seconds_0_5;
      Master true 255; Segment 0 0 0; Sleep seconds_0_01 ].
Proof.
  vm_compute. reflexivity.
Qed.
